(** * Sudoku solver core of [task2.py]: board primitives, backtracking search,
    AC-3 propagation and puzzle loading, embedded as executable definitions.

    Conventions of the embedding.
    - A grid ([self.puzzle]) is a Python list of row lists holding ints:
      [list (list Z)].  Row objects are built fresh at every construction
      site of the source, so rows are never shared and a grid is a value.
    - Python exceptions ([IndexError], [KeyError], [AssertionError]) are the
      [Raise] outcomes of the [result] monad; a raised exception carries no
      state.
    - Recursion and the work-list loop are driven by a fuel argument; the
      top-level functions provide a fuel that is proved sufficient. *)

From stdpp Require Import gmap strings list fin_maps.
From Stdlib Require Import ZArith Lia.

Open Scope Z_scope.
Open Scope nat_scope.

(** ** Outcomes of a Python call *)

Inductive exn := IndexError | KeyError | AssertionError.

Inductive result (A : Type) : Type :=
| Ok (a : A)
| Raise (e : exn)
| NoFuel.
Arguments Ok {A} a.
Arguments Raise {A} e.
Arguments NoFuel {A}.

#[global] Instance result_ret : MRet result := fun A a => Ok a.
#[global] Instance result_bind : MBind result := fun A B f m =>
  match m with
  | Ok a => f a
  | Raise e => Raise e
  | NoFuel => NoFuel
  end.
#[global] Instance result_fmap : FMap result := fun A B f m =>
  match m with
  | Ok a => Ok (f a)
  | Raise e => Raise e
  | NoFuel => NoFuel
  end.

(** ** The board *)

Abbreviation grid := (list (list Z)).
Abbreviation cell := (nat * nat)%type.

(** [seq[i]] for a non-negative index [i]. *)
Definition index {A} (l : list A) (i : nat) : result A :=
  match l !! i with
  | Some x => Ok x
  | None => Raise IndexError
  end.

(** [self.puzzle[i][j]] *)
Definition get_cell (g : grid) (i j : nat) : result Z :=
  r ← index g i; index r j.

(** [self.puzzle[i][j] = v] *)
Definition set_cell (g : grid) (i j : nat) (v : Z) : result grid :=
  r ← index g i;
  _ ← index r j;
  Ok (<[i := <[j := v]> r]> g).

(** The pure view of a grid used in statements: the content of a cell, if
    the cell exists. *)
Definition cell_at (g : grid) (c : cell) : option Z :=
  r ← g !! c.1; r !! c.2.

(** [range(9) x range(9)] in row-major order. *)
Definition all_cells : list cell :=
  i ← seq 0 9; j ← seq 0 9; [(i, j)].

(** [check_win]: no row of the grid holds a 0. *)
Definition check_win (g : grid) : bool :=
  forallb (fun row => negb (existsb (Z.eqb 0) row)) g.

(** [find_empty_cell]: the two nested [for] loops read the cells in
    row-major order and return at the first 0. *)
Fixpoint find_empty_in (g : grid) (cs : list cell) : result (option cell) :=
  match cs with
  | [] => Ok None
  | (i, j) :: cs' =>
      v ← get_cell g i j;
      if decide (v = 0%Z) then Ok (Some (i, j)) else find_empty_in g cs'
  end.

Definition find_empty_cell (g : grid) : result (option cell) :=
  find_empty_in g all_cells.

(** The block scan of [is_valid]: returns at the first occurrence. *)
Fixpoint block_free (g : grid) (num : Z) (cs : list cell) : result bool :=
  match cs with
  | [] => Ok true
  | (i, j) :: cs' =>
      v ← get_cell g i j;
      if decide (v = num) then Ok false else block_free g num cs'
  end.

Definition block_cells (start_row start_col : nat) : list cell :=
  i ← seq 0 3; j ← seq 0 3; [(start_row + i, start_col + j)].

(** The list comprehension [[self.puzzle[i][col] for i in range(9)]]. *)
Fixpoint column_of (g : grid) (col : nat) (rows : list nat) : result (list Z) :=
  match rows with
  | [] => Ok []
  | i :: rows' =>
      v ← get_cell g i col;
      vs ← column_of g col rows';
      Ok (v :: vs)
  end.

Definition is_valid (g : grid) (num : Z) (row col : nat) : result bool :=
  r ← index g row;
  if decide (num ∈ r) then Ok false else
  column ← column_of g col (seq 0 9);
  if decide (num ∈ column) then Ok false else
  block_free g num (block_cells (3 * (row / 3)) (3 * (col / 3))).

(** ** Backtracking *)

(** The body of [for num in range(1, 10)], with the recursive call
    abstracted as [solve]. *)
Fixpoint try_candidates (solve : grid → result (bool * grid))
    (row col : nat) (nums : list Z) (g : grid) : result (bool * grid) :=
  match nums with
  | [] => Ok (false, g)
  | num :: rest =>
      ok ← is_valid g num row col;
      if ok : bool then
        g1 ← set_cell g row col num;
        '(solved, g2) ← solve g1;
        if solved : bool then Ok (true, g2)
        else
          g3 ← set_cell g2 row col 0%Z;
          try_candidates solve row col rest g3
      else try_candidates solve row col rest g
  end.

(** [range(1, 10)] *)
Definition candidates : list Z := Z.of_nat <$> seq 1 9.

Fixpoint backtracking_solve_fuel (fuel : nat) (g : grid) : result (bool * grid) :=
  match fuel with
  | 0 => NoFuel
  | S fuel' =>
      empty_cell ← find_empty_cell g;
      match empty_cell with
      | None => Ok (true, g)
      | Some (row, col) =>
          try_candidates (backtracking_solve_fuel fuel') row col candidates g
      end
  end.

(** Every recursive call has filled one more of the 81 scanned cells, so the
    recursion depth never exceeds 82 (see [backtracking_solve_total]). *)
Definition backtracking_solve (g : grid) : result (bool * grid) :=
  backtracking_solve_fuel (S (length all_cells)) g.

(** ** AC-3 *)

(** [get_neighbors] builds a Python set by inserting, for [k] in
    [range(9)], the row, column and block companions, then discards the
    cell itself. *)
Definition get_neighbors (row col : nat) : gset cell :=
  let block_row := row - row mod 3 in
  let block_col := col - col mod 3 in
  foldl (fun (neighbors : gset cell) k =>
           let n1 := if decide (k ≠ col) then neighbors ∪ {[(row, k)]} else neighbors in
           let n2 := if decide (k ≠ row) then n1 ∪ {[(k, col)]} else n1 in
           n2 ∪ {[(block_row + k / 3, block_col + k mod 3)]})
        ∅ (seq 0 9)
  ∖ {[(row, col)]}.

(** The three [discard] calls of one iteration of [get_domain]. *)
Definition discard_step (g : grid) (row col : nat) (allowed : gset Z) (k : nat)
  : result (gset Z) :=
  let block_row := row - row mod 3 in
  let block_col := col - col mod 3 in
  a ← get_cell g row k;
  b ← get_cell g k col;
  c ← get_cell g (block_row + k / 3) (block_col + k mod 3);
  Ok (allowed ∖ {[a]} ∖ {[b]} ∖ {[c]}).

Fixpoint discard_all (g : grid) (row col : nat) (allowed : gset Z) (ks : list nat)
  : result (gset Z) :=
  match ks with
  | [] => Ok allowed
  | k :: ks' =>
      allowed' ← discard_step g row col allowed k;
      discard_all g row col allowed' ks'
  end.

Definition get_domain (g : grid) (row col : nat) : result (gset Z) :=
  v ← get_cell g row col;
  if decide (v ≠ 0%Z) then Ok {[v]}
  else discard_all g row col (list_to_set candidates) (seq 0 9).

(** The dict comprehension building [domains]. *)
Fixpoint init_domains_in (g : grid) (cs : list cell) : result (gmap cell (gset Z)) :=
  match cs with
  | [] => Ok ∅
  | (row, col) :: cs' =>
      d ← get_domain g row col;
      rest ← init_domains_in g cs';
      Ok (<[(row, col) := d]> rest)
  end.

Definition init_domains (g : grid) : result (gmap cell (gset Z)) :=
  init_domains_in g all_cells.

(** [deque(... if self.puzzle[row][col] == 0)] *)
Fixpoint init_queue_in (g : grid) (cs : list cell) : result (list cell) :=
  match cs with
  | [] => Ok []
  | (row, col) :: cs' =>
      v ← get_cell g row col;
      rest ← init_queue_in g cs';
      Ok (if decide (v = 0%Z) then (row, col) :: rest else rest)
  end.

Definition init_queue (g : grid) : result (list cell) :=
  init_queue_in g all_cells.

(** [domains[key]] *)
Definition dom_of (domains : gmap cell (gset Z)) (key : cell) : result (gset Z) :=
  match domains !! key with
  | Some d => Ok d
  | None => Raise KeyError
  end.

(** [revise(xi, xj)]: [xj_domain -= xi_domain] updates the set stored at
    [xj] in place. *)
Definition revise (domains : gmap cell (gset Z)) (xi xj : cell)
  : result (bool * gmap cell (gset Z)) :=
  xj_domain ← dom_of domains xj;
  xi_domain ← dom_of domains xi;
  if decide (size xi_domain = 1) then
    if decide (xi_domain ∩ xj_domain ≠ ∅) then
      Ok (true, <[xj := xj_domain ∖ xi_domain]> domains)
    else Ok (false, domains)
  else Ok (false, domains).

(** The body of [for neighbor in get_neighbors(row, col)].  [None] is the
    [return False] of line 156. *)
Fixpoint revise_neighbors (xi : cell) (neighbors : list cell)
    (domains : gmap cell (gset Z)) (queue : list cell)
  : result (option (gmap cell (gset Z) * list cell)) :=
  match neighbors with
  | [] => Ok (Some (domains, queue))
  | neighbor :: rest =>
      if decide (neighbor ∈ dom domains) then
        '(revised, domains') ← revise domains xi neighbor;
        if revised : bool then
          d ← dom_of domains' xi;
          if decide (size d = 0) then Ok None
          else revise_neighbors xi rest domains' (queue ++ [neighbor])
        else revise_neighbors xi rest domains' queue
      else Raise AssertionError
  end.

(** [domains[(row, col)].pop()] *)
Definition set_pop (d : gset Z) : result Z :=
  match elements d with
  | [] => Raise KeyError
  | v :: _ => Ok v
  end.

(** The loop applying the singleton domains.  The keys of [domains] are
    visited in insertion order, which is [all_cells]. *)
Fixpoint apply_singletons (domains : gmap cell (gset Z)) (keys : list cell)
    (g : grid) : result grid :=
  match keys with
  | [] => Ok g
  | (row, col) :: keys' =>
      d ← dom_of domains (row, col);
      if decide (size d = 1) then
        v ← set_pop d;
        g' ← set_cell g row col v;
        apply_singletons domains keys' g'
      else apply_singletons domains keys' g
  end.

(** The fuel that [ac3_solve] gives to its work-list loop: queue length plus
    the number of candidates left in all domains. *)
Definition total_size (domains : gmap cell (gset Z)) : nat :=
  map_fold (fun _ (d : gset Z) acc => size d + acc) 0 domains.

Section AC3.
(** Iteration order of a Python set of cells: any enumeration. *)
Variable set_order : gset cell → list cell.

(** [while queue: ...]; [None] is the early [return False]. *)
Fixpoint revision_loop (fuel : nat) (domains : gmap cell (gset Z))
    (queue : list cell) : result (option (gmap cell (gset Z))) :=
  match queue with
  | [] => Ok (Some domains)
  | (row, col) :: queue' =>
      match fuel with
      | 0 => NoFuel
      | S fuel' =>
          r ← revise_neighbors (row, col) (set_order (get_neighbors row col))
                domains queue';
          match r with
          | None => Ok None
          | Some (domains', queue'') => revision_loop fuel' domains' queue''
          end
      end
  end.

Definition ac3_solve (g : grid) : result (bool * grid) :=
  domains ← init_domains g;
  queue ← init_queue g;
  r ← revision_loop (length queue + total_size domains) domains queue;
  match r with
  | None => Ok (false, g)
  | Some domains' =>
      g1 ← apply_singletons domains' all_cells g;
      if check_win g1 then Ok (true, g1)
      else
        '(_, g2) ← backtracking_solve g1;
        Ok (true, g2)
  end.
End AC3.

(** ** The game object and puzzle loading *)

(** Grid objects live in a store and are named by their identity, so that
    two attributes bound to the same Python list are the same [loc]. *)
Abbreviation loc := nat (only parsing).

Record SudokuGame := mkGame {
  heap : gmap loc grid;
  puzzles : gmap string (list loc);
  puzzle : loc;
  original_puzzle : loc
}.

(** [seq[i]] for a Python int [i]: negative indices count from the end. *)
Definition py_index {A} (l : list A) (i : Z) : result A :=
  if decide (0 ≤ i)%Z then index l (Z.to_nat i)
  else if decide (- Z.of_nat (length l) ≤ i)%Z
       then index l (Z.to_nat (Z.of_nat (length l) + i))
       else Raise IndexError.

(** [load_puzzle]: [self.puzzle] is bound to the stored list itself;
    [self.original_puzzle] is a new object built by [[row[:] for row in ...]]. *)
Definition load_puzzle (difficulty : string) (idx : Z) (s : SudokuGame)
  : result SudokuGame :=
  match puzzles s !! difficulty with
  | Some stored =>
      if decide (idx < Z.of_nat (length stored))%Z then
        p ← py_index stored idx;
        let snapshot := fresh (dom (heap s)) in
        Ok {| heap := <[snapshot := heap s !!! p]> (heap s);
              puzzles := puzzles s;
              puzzle := p;
              original_puzzle := snapshot |}
      else Ok s
  | None => Ok s
  end.

(** [start]: [self.puzzle] becomes a new copy of the snapshot. *)
Definition start (s : SudokuGame) : SudokuGame :=
  let copy := fresh (dom (heap s)) in
  {| heap := <[copy := heap s !!! original_puzzle s]> (heap s);
     puzzles := puzzles s;
     puzzle := copy;
     original_puzzle := original_puzzle s |}.

(** A solver method run on the game: it mutates the object [self.puzzle]
    is bound to. *)
Definition on_puzzle (solver : grid → result (bool * grid)) (s : SudokuGame)
  : result (bool * SudokuGame) :=
  '(b, g') ← solver (heap s !!! puzzle s);
  Ok (b, {| heap := <[puzzle s := g']> (heap s);
            puzzles := puzzles s;
            puzzle := puzzle s;
            original_puzzle := original_puzzle s |}).

Definition game_backtracking_solve : SudokuGame → result (bool * SudokuGame) :=
  on_puzzle backtracking_solve.

(** The grid currently stored in [self.puzzles[difficulty][i]]. *)
Definition stored_grid (s : SudokuGame) (difficulty : string) (i : nat)
  : option grid :=
  stored ← puzzles s !! difficulty; p ← stored !! i; heap s !! p.

Definition working_grid (s : SudokuGame) : option grid := heap s !! puzzle s.
Definition snapshot_grid (s : SudokuGame) : option grid :=
  heap s !! original_puzzle s.

(** ** Predicates of the specification *)

(** All 81 scanned cells exist. *)
Definition readable (g : grid) : Prop :=
  ∀ c, c ∈ all_cells → is_Some (cell_at g c).

(** Exactly nine rows of exactly nine cells. *)
Definition grid9 (g : grid) : Prop :=
  length g = 9 ∧ Forall (fun r => length r = 9) g.

(** The board of the data model: 9x9 with entries in [0,9]. *)
Definition Board (g : grid) : Prop :=
  grid9 g ∧ Forall (Forall (fun v => 0 ≤ v ≤ 9)%Z) g.

Definition same_block (c1 c2 : cell) : Prop :=
  c1.1 / 3 = c2.1 / 3 ∧ c1.2 / 3 = c2.2 / 3.

(** Two distinct cells that share a row, a column or a 3x3 block. *)
Definition peer (c1 c2 : cell) : Prop :=
  c1 ≠ c2 ∧ (c1.1 = c2.1 ∨ c1.2 = c2.2 ∨ same_block c1 c2).

(** No non-zero value occurs twice in a row, a column or a block. *)
Definition no_conflict (g : grid) : Prop :=
  ∀ c1 c2 v, c1 ∈ all_cells → c2 ∈ all_cells → peer c1 c2 →
    cell_at g c1 = Some v → cell_at g c2 = Some v → v = 0%Z.

(** Every cell holds a digit 1-9. *)
Definition filled (g : grid) : Prop :=
  ∀ c, c ∈ all_cells → ∃ v, cell_at g c = Some v ∧ (1 ≤ v ≤ 9)%Z.

(** No row, column or block holds a value twice. *)
Definition no_repeat (g : grid) : Prop :=
  ∀ c1 c2, c1 ∈ all_cells → c2 ∈ all_cells → peer c1 c2 →
    cell_at g c1 ≠ cell_at g c2.

(** The givens of [g] are kept in [s]. *)
Definition keeps_givens (g s : grid) : Prop :=
  ∀ c v, cell_at g c = Some v → v ≠ 0%Z → cell_at s c = Some v.

(** [s] is a solution of the puzzle [g]. *)
Definition solves (s g : grid) : Prop :=
  grid9 s ∧ filled s ∧ no_repeat s ∧ keeps_givens g s.

(** Number of scanned cells holding 0. *)
Definition zeros (g : grid) : nat :=
  length (filter (fun c => cell_at g c = Some 0%Z) all_cells).

(** ** Auxiliary definitions of the proofs and concrete inputs *)

(** The cells whose content [is_valid num row col] compares with [num]. *)
Definition in_scope (row col : nat) (c : cell) : Prop :=
  c.1 = row ∨ c.2 = col ∨ same_block c (row, col).

(** Every scanned cell holds a digit or 0. *)
Definition digits (g : grid) : Prop :=
  ∀ c v, c ∈ all_cells → cell_at g c = Some v → (0 ≤ v ≤ 9)%Z.

(** The invariant that makes propagation sound for a solution [s]: no
    domain has lost the value [s] gives to its cell. *)
Definition sol_inv (s : grid) (domains : gmap cell (gset Z)) : Prop :=
  ∀ c, c ∈ all_cells →
    ∃ d v, domains !! c = Some d ∧ cell_at s c = Some v ∧ v ∈ d.

#[global] Instance peer_dec c1 c2 : Decision (peer c1 c2).
Proof. unfold peer, same_block. apply _. Defined.

#[global] Instance grid9_dec g : Decision (grid9 g).
Proof. unfold grid9. apply _. Defined.

#[global] Instance Board_dec g : Decision (Board g).
Proof. unfold Board. apply _. Defined.

(** [s] is a 9x9 grid of digits 1-9 without a repeat. *)
Definition check_solution (s : grid) : bool :=
  bool_decide (grid9 s)
  && forallb (fun c => match cell_at s c with
                       | Some v => bool_decide (1 ≤ v ≤ 9)%Z
                       | None => false
                       end) all_cells
  && forallb (fun c1 => forallb (fun c2 =>
         bool_decide (peer c1 c2 → cell_at s c1 ≠ cell_at s c2)) all_cells)
       all_cells.

(** [g] is 9x9 and each of its cells is 0 or agrees with [s]. *)
Definition check_givens (g s : grid) : bool :=
  bool_decide (grid9 g)
  && forallb (fun c => bool_decide (cell_at g c = Some 0%Z ∨ cell_at g c = cell_at s c))
       all_cells.

(** ** Concrete grids *)

(** The solved grid of the easy puzzle of the specification. *)
Definition solved1 : grid :=
  [[5;3;4;6;7;8;9;1;2];
   [6;7;2;1;9;5;3;4;8];
   [1;9;8;3;4;2;5;6;7];
   [8;5;9;7;6;1;4;2;3];
   [4;2;6;8;5;3;7;9;1];
   [7;1;3;9;2;4;8;5;6];
   [9;6;1;5;3;7;2;8;4];
   [2;8;7;4;1;9;6;3;5];
   [3;4;5;2;8;6;1;7;9]]%Z.

(** The easy puzzle itself. *)
Definition easy1 : grid :=
  [[5;3;0;0;7;0;0;0;0];
   [6;0;0;1;9;5;0;0;0];
   [0;9;8;0;0;0;0;6;0];
   [8;0;0;0;6;0;0;0;3];
   [4;0;0;8;0;3;0;0;1];
   [7;0;0;0;2;0;0;0;6];
   [0;6;0;0;0;0;2;8;0];
   [0;0;0;4;1;9;0;0;5];
   [0;0;0;0;8;0;0;7;9]]%Z.

(** [solved1] with the cell (0,2) blanked: a puzzle with one solution. *)
Definition one_blank : grid :=
  [[5;3;0;6;7;8;9;1;2];
   [6;7;2;1;9;5;3;4;8];
   [1;9;8;3;4;2;5;6;7];
   [8;5;9;7;6;1;4;2;3];
   [4;2;6;8;5;3;7;9;1];
   [7;1;3;9;2;4;8;5;6];
   [9;6;1;5;3;7;2;8;4];
   [2;8;7;4;1;9;6;3;5];
   [3;4;5;2;8;6;1;7;9]]%Z.

(** A grid without solution: (0,0) and (0,1) are empty and 5 is the only
    candidate of both (row 3 holds the second 3 of column 1). *)
Definition wipeout : grid :=
  [[0;0;4;6;7;8;9;1;2];
   [6;7;2;1;9;5;3;4;8];
   [1;9;8;3;4;2;5;6;7];
   [8;3;9;7;6;1;4;2;3];
   [4;2;6;8;5;3;7;9;1];
   [7;1;3;9;2;4;8;5;6];
   [9;6;1;5;3;7;2;8;4];
   [2;8;7;4;1;9;6;3;5];
   [3;4;5;2;8;6;1;7;9]]%Z.

(** [wipeout] after [ac3_solve]: 5 written at (0,0), (0,1) still empty. *)
Definition wipeout_after_ac3 : grid :=
  [[5;0;4;6;7;8;9;1;2];
   [6;7;2;1;9;5;3;4;8];
   [1;9;8;3;4;2;5;6;7];
   [8;3;9;7;6;1;4;2;3];
   [4;2;6;8;5;3;7;9;1];
   [7;1;3;9;2;4;8;5;6];
   [9;6;1;5;3;7;2;8;4];
   [2;8;7;4;1;9;6;3;5];
   [3;4;5;2;8;6;1;7;9]]%Z.

(** [solved1] with the cells (0,3), (0,4), (3,3), (3,4) blanked: a puzzle
    with two solutions, [solved1] and [solved1_swapped]. *)
Definition two_solutions : grid :=
  [[5;3;4;0;0;8;9;1;2];
   [6;7;2;1;9;5;3;4;8];
   [1;9;8;3;4;2;5;6;7];
   [8;5;9;0;0;1;4;2;3];
   [4;2;6;8;5;3;7;9;1];
   [7;1;3;9;2;4;8;5;6];
   [9;6;1;5;3;7;2;8;4];
   [2;8;7;4;1;9;6;3;5];
   [3;4;5;2;8;6;1;7;9]]%Z.

Definition solved1_swapped : grid :=
  [[5;3;4;7;6;8;9;1;2];
   [6;7;2;1;9;5;3;4;8];
   [1;9;8;3;4;2;5;6;7];
   [8;5;9;6;7;1;4;2;3];
   [4;2;6;8;5;3;7;9;1];
   [7;1;3;9;2;4;8;5;6];
   [9;6;1;5;3;7;2;8;4];
   [2;8;7;4;1;9;6;3;5];
   [3;4;5;2;8;6;1;7;9]]%Z.

(** The grid [[[0] * 9 for _ in range(9)]] of [__init__]. *)
Definition empty_grid : grid := replicate 9 (replicate 9 0%Z).

(** A game after [__init__] and a [load_puzzles] that found two easy
    puzzles: objects 0 and 1 are the two grids of [__init__], objects 2 and 3
    the stored puzzles. *)
Definition game0 : SudokuGame :=
  {| heap := {[0 := empty_grid; 1 := empty_grid; 2 := one_blank; 3 := easy1]};
     puzzles := {["Easy" := [2; 3]; "Medium" := []; "Hard" := []]};
     puzzle := 0;
     original_puzzle := 1 |}.

(** The domains of two cells after [init_domains]. *)
Definition initial_domains_at (g : grid) (c1 c2 : cell)
  : result (option (gset Z) * option (gset Z)) :=
  domains ← init_domains g; Ok (domains !! c1, domains !! c2).

(** The first iteration of the [while] loop of [ac3_solve]: the domain of
    [c] and the queue after the first dequeue. *)
Definition first_dequeue (set_order : gset cell → list cell) (g : grid) (c : cell)
  : result (option (option (gset Z) * list cell)) :=
  domains ← init_domains g;
  queue ← init_queue g;
  match queue with
  | [] => Ok None
  | (row, col) :: queue' =>
      r ← revise_neighbors (row, col) (set_order (get_neighbors row col))
            domains queue';
      Ok (match r with
          | Some (domains1, queue1) => Some (domains1 !! c, queue1)
          | None => None
          end)
  end.

(** What one can observe of a game: the stored easy puzzles, the working
    grid and the snapshot. *)
Definition observe (s : SudokuGame)
  : option grid * option grid * option grid * option grid :=
  (stored_grid s "Easy" 0, stored_grid s "Easy" 1, working_grid s,
   snapshot_grid s).

(** ** Definitions of the further properties *)

(** Domains only shrink. *)
Definition shrinks (domains domains' : gmap cell (gset Z)) : Prop :=
  ∀ c d', domains' !! c = Some d' → ∃ d, domains !! c = Some d ∧ d' ⊆ d.

(** [ac3_solve] as a method of the game. *)
Definition game_ac3_solve (set_order : gset cell → list cell)
  : SudokuGame → result (bool * SudokuGame) :=
  on_puzzle (ac3_solve set_order).

(** ** Reading and installing the puzzle files *)

(** What the loop of [_read_puzzle_file] makes of a line after
    [line.strip()]: the test of line 34 fails ([Other]); it passes and
    [int] accepts every token of [line.split()] ([Numeric], with the row);
    it passes and [int] raises ValueError on a token ([Malformed]).  The
    string tests themselves are Python built-ins and are not modelled. *)
Inductive line_kind := Numeric (row : list Z) | Other | Malformed.

(** Only FileNotFoundError is caught; a ValueError leaves the function. *)
Inductive read_outcome (A : Type) : Type :=
| Read (a : A)
| ValueError.
Arguments Read {A} a.
Arguments ValueError {A}.

(** The [for line in f] loop and the final [if current_puzzle]. *)
Fixpoint read_lines (lines : list line_kind) (puzzles : list grid)
    (current_puzzle : grid) : read_outcome (list grid) :=
  match lines with
  | [] =>
      Read (match current_puzzle with
            | [] => puzzles
            | _ :: _ => puzzles ++ [current_puzzle]
            end)
  | Numeric row :: rest => read_lines rest puzzles (current_puzzle ++ [row])
  | Other :: rest =>
      match current_puzzle with
      | [] => read_lines rest puzzles current_puzzle
      | _ :: _ => read_lines rest (puzzles ++ [current_puzzle]) []
      end
  | Malformed :: _ => ValueError
  end.

(** [_read_puzzle_file]; [None] is a file that does not exist. *)
Definition read_puzzle_file (file : option (list line_kind))
  : read_outcome (list grid) :=
  match file with
  | None => Read []
  | Some lines => read_lines lines [] []
  end.

(** The rows of the numeric lines of a file, in file order. *)
Definition numeric_rows (lines : list line_kind) : grid :=
  omap (fun l => match l with Numeric row => Some row | _ => None end) lines.

(** Each puzzle read from a file is a new list object. *)
Fixpoint alloc_grids (grids : list grid) (h : gmap loc grid)
  : list loc * gmap loc grid :=
  match grids with
  | [] => ([], h)
  | g :: rest =>
      let l := fresh (dom h) in
      let '(ls, h') := alloc_grids rest (<[l := g]> h) in
      (l :: ls, h')
  end.

(** [self.puzzles[difficulty] = <the puzzles read>] *)
Definition store_puzzles (difficulty : string) (grids : list grid)
    (s : SudokuGame) : SudokuGame :=
  let '(ls, h) := alloc_grids grids (heap s) in
  {| heap := h;
     puzzles := <[difficulty := ls]> (puzzles s);
     puzzle := puzzle s;
     original_puzzle := original_puzzle s |}.

(** [load_puzzles], given the content of the three files (or [None] for a
    file that does not exist).  A ValueError leaves the method. *)
Definition load_puzzles (easy medium hard : option (list line_kind))
    (s : SudokuGame) : read_outcome SudokuGame :=
  match read_puzzle_file easy with
  | ValueError => ValueError
  | Read e =>
      let s1 := store_puzzles "Easy" e s in
      match read_puzzle_file medium with
      | ValueError => ValueError
      | Read m =>
          let s2 := store_puzzles "Medium" m s1 in
          match read_puzzle_file hard with
          | ValueError => ValueError
          | Read h => Read (store_puzzles "Hard" h s2)
          end
      end
  end.

(** The stored list of a tier names objects that hold [grids]. *)
Definition tier_holds (s : SudokuGame) (difficulty : string) (grids : list grid)
  : Prop :=
  ∃ ls, puzzles s !! difficulty = Some ls ∧ length ls = length grids ∧
        ∀ i l, ls !! i = Some l → is_Some (grids !! i) ∧ heap s !! l = grids !! i.

(** ** The order of the solutions *)

(** Row-major order of the cells. *)
Definition before (c1 c2 : cell) : Prop :=
  c1.1 < c2.1 ∨ (c1.1 = c2.1 ∧ c1.2 < c2.2).

(** Lexicographic order of grids, read in row-major order. *)
Definition lex_le (a b : grid) : Prop :=
  a = b ∨
  ∃ c va vb, c ∈ all_cells ∧
    (∀ c', c' ∈ all_cells → before c' c → cell_at a c' = cell_at b c') ∧
    cell_at a c = Some va ∧ cell_at b c = Some vb ∧ (va < vb)%Z.

(** The candidates are tried in strictly ascending order. *)
Fixpoint ascending (nums : list Z) : Prop :=
  match nums with
  | [] => True
  | num :: rest => Forall (Z.lt num) rest ∧ ascending rest
  end.

(** ** The cursor handlers of the window *)

(** Of [SudokuUI] only the attributes the handlers compute with are
    modelled: the game and the cursor ([self.row], [self.col]).  The canvas
    calls ([focus_set], [__draw_cursor], [__draw_puzzle]) read these
    attributes and change none of them. *)
Module UI.

Definition GRID_SIZE : Z := 450.
Definition MARGIN : Z := 20.
Definition SIDE : Z := 45.

Record SudokuUI := mk {
  game : SudokuGame;
  row : Z;
  col : Z
}.

(** [__init__]: the cursor starts on (0, 0). *)
Definition init (g : SudokuGame) : SudokuUI :=
  {| game := g; row := 0; col := 0 |}.

Definition current_grid (ui : SudokuUI) : grid :=
  heap (game ui) !!! puzzle (game ui).

(** [__cell_clicked], for a click at [(event.x, event.y)].  The last
    assignment, [self.row, col = row, col], binds [self.row] and the local
    [col]. *)
Definition cell_clicked (x y : Z) (ui : SudokuUI) : result SudokuUI :=
  if check_win (current_grid ui) then Ok ui
  else if decide ((MARGIN < x < GRID_SIZE - MARGIN)%Z ∧
                  (MARGIN < y < GRID_SIZE - MARGIN)%Z) then
    let r := ((y - MARGIN) `div` SIDE)%Z in
    let c := ((x - MARGIN) `div` SIDE)%Z in
    if decide ((r, c) = (row ui, col ui)) then
      Ok {| game := game ui; row := -1; col := -1 |}
    else
      cells ← py_index (current_grid ui) r;
      v ← py_index cells c;
      if decide (v = 0%Z) then Ok {| game := game ui; row := r; col := col ui |}
      else Ok ui
  else Ok ui.

(** Python's [s in t] on strings. *)
Fixpoint contains (s t : string) : bool :=
  String.prefix s t ||
  match t with
  | EmptyString => false
  | String _ t' => contains s t'
  end.

Definition digit_of (a : Ascii.ascii) : option Z :=
  let n := Z.of_nat (Ascii.nat_of_ascii a) in
  if decide (48 ≤ n ≤ 57)%Z then Some (n - 48)%Z else None.

Fixpoint int_acc (s : string) (acc : Z) : option Z :=
  match s with
  | EmptyString => Some acc
  | String a s' => d ← digit_of a; int_acc s' (10 * acc + d)%Z
  end.

(** [int(event.char)] for a string of decimal digits, the only strings the
    test [event.char in "1234567890"] lets through; [None] is ValueError,
    which [int] raises on the empty string. *)
Definition int (s : string) : option Z :=
  match s with
  | EmptyString => None
  | _ => int_acc s 0
  end.

Inductive outcome (A : Type) : Type :=
| Returns (a : A)
| RaisesIndexError
| RaisesValueError.
Arguments Returns {A} a.
Arguments RaisesIndexError {A}.
Arguments RaisesValueError {A}.

(** [__key_pressed], for a key event with [event.char = char].  The right
    side [int(event.char)] is evaluated before the subscript of the
    assignment. *)
Definition key_pressed (char : string) (ui : SudokuUI) : outcome SudokuUI :=
  if check_win (current_grid ui) then Returns ui
  else if decide ((0 ≤ row ui)%Z ∧ (0 ≤ col ui)%Z ∧
                  contains char "1234567890" = true) then
    match int char with
    | None => RaisesValueError
    | Some n =>
        match set_cell (current_grid ui) (Z.to_nat (row ui)) (Z.to_nat (col ui)) n with
        | Ok g' =>
            Returns {| game := {| heap := <[puzzle (game ui) := g']> (heap (game ui));
                                  puzzles := puzzles (game ui);
                                  puzzle := puzzle (game ui);
                                  original_puzzle := original_puzzle (game ui) |};
                       row := -1; col := -1 |}
        | _ => RaisesIndexError
        end
    end
  else Returns ui.

(** A window whose game has the easy puzzle loaded. *)
Definition ui_easy : SudokuUI :=
  init {| heap := heap game0; puzzles := puzzles game0; puzzle := 3;
          original_puzzle := 1 |}.

End UI.

(** * Proofs *)

(** ** The result monad *)

Lemma bind_Ok {A B} (m : result A) (f : A → result B) b :
  m ≫= f = Ok b ↔ ∃ a, m = Ok a ∧ f a = Ok b.
Proof.
  destruct m; simpl; split; try (intros (? & ? & ?)); try done.
  - intros ?; by eexists.
  - congruence.
Qed.

Lemma bind_NoFuel {A B} (m : result A) (f : A → result B) :
  m ≫= f = NoFuel ↔ m = NoFuel ∨ ∃ a, m = Ok a ∧ f a = NoFuel.
Proof.
  destruct m; simpl; split; try done.
  - intros ?; right; by eexists.
  - by intros [? | (? & [= <-] & ?)].
  - by intros [? | (? & ? & ?)].
  - by left.
Qed.

Lemma bind_Ok_l {A B} (a : A) (f : A → result B) : Ok a ≫= f = f a.
Proof. reflexivity. Qed.

Lemma bind_Raise_l {A B} e (f : A → result B) : Raise e ≫= f = Raise e.
Proof. reflexivity. Qed.

Lemma bind_NoFuel_l {A B} (f : A → result B) : NoFuel ≫= f = NoFuel.
Proof. reflexivity. Qed.

Ltac bind_step := rewrite ?bind_Ok_l, ?bind_Raise_l, ?bind_NoFuel_l.

Ltac inv_ok :=
  repeat match goal with
  | H : _ ≫= _ = Ok _ |- _ =>
      let a := fresh "a" in
      let E := fresh "E" in
      apply bind_Ok in H as (a & E & H)
  | H : Ok _ = Ok _ |- _ => injection H as H
  | H : Raise _ = Ok _ |- _ => discriminate H
  | H : NoFuel = Ok _ |- _ => discriminate H
  | H : (_, _) = (_, _) |- _ => injection H as ??
  | H : Some _ = Some _ |- _ => injection H as H
  | H : Some _ = None |- _ => discriminate H
  | H : None = Some _ |- _ => discriminate H
  | H : true = false |- _ => discriminate H
  | H : false = true |- _ => discriminate H
  | H : ?x = ?y |- _ => first [is_var x; subst x | is_var y; subst y]
  end.

(** ** Reading and writing cells *)

Lemma index_Ok {A} (l : list A) i x : index l i = Ok x ↔ l !! i = Some x.
Proof. unfold index. destruct (l !! i); split; congruence. Qed.

Lemma index_not_NoFuel {A} (l : list A) i : index l i ≠ NoFuel.
Proof. unfold index. by destruct (l !! i). Qed.

Lemma get_cell_Ok g i j v : get_cell g i j = Ok v ↔ cell_at g (i, j) = Some v.
Proof.
  unfold get_cell, cell_at; simpl. rewrite bind_Ok. split.
  - intros (r & Hr%index_Ok & Hv%index_Ok). by rewrite Hr.
  - destruct (g !! i) as [r|] eqn:Hr; simpl; [|done].
    intros Hv. exists r. by rewrite !index_Ok.
Qed.

Lemma get_cell_not_NoFuel g i j : get_cell g i j ≠ NoFuel.
Proof.
  unfold get_cell. rewrite bind_NoFuel.
  intros [H | (? & _ & H)]; by apply index_not_NoFuel in H.
Qed.

Lemma get_cell_defined g i j :
  is_Some (cell_at g (i, j)) → ∃ v, get_cell g i j = Ok v.
Proof. intros [v Hv]. exists v. by apply get_cell_Ok. Qed.

Lemma set_cell_Ok g i j v g' :
  set_cell g i j v = Ok g' ↔
  ∃ r, g !! i = Some r ∧ j < length r ∧ g' = <[i := <[j := v]> r]> g.
Proof.
  unfold set_cell. rewrite bind_Ok. split.
  - intros (r & Hr%index_Ok & H). apply bind_Ok in H as (x & Hx%index_Ok & H).
    exists r. apply lookup_lt_Some in Hx. naive_solver.
  - intros (r & Hr & Hj & ->). exists r. rewrite index_Ok. split; [done|].
    apply lookup_lt_is_Some in Hj as [x Hx].
    apply bind_Ok. exists x. by rewrite index_Ok.
Qed.

Lemma set_cell_not_NoFuel g i j v : set_cell g i j v ≠ NoFuel.
Proof.
  unfold set_cell. rewrite bind_NoFuel.
  intros [H | (r & _ & H)]; [by apply index_not_NoFuel in H|].
  apply bind_NoFuel in H as [H | (? & _ & H)]; [|done].
  by apply index_not_NoFuel in H.
Qed.

Lemma set_cell_defined g i j v :
  is_Some (cell_at g (i, j)) → ∃ g', set_cell g i j v = Ok g'.
Proof.
  unfold cell_at; simpl. intros [x Hx].
  destruct (g !! i) as [r|] eqn:Hr; simpl in Hx; [|done].
  eexists. apply set_cell_Ok. exists r. apply lookup_lt_Some in Hx. eauto.
Qed.

Lemma cell_at_set_eq g i j v g' :
  set_cell g i j v = Ok g' → cell_at g' (i, j) = Some v.
Proof.
  intros (r & Hr & Hj & ->)%set_cell_Ok. unfold cell_at; simpl.
  rewrite list_lookup_insert_eq by (by eapply lookup_lt_Some). simpl.
  by rewrite list_lookup_insert_eq.
Qed.

Lemma cell_at_set_ne g i j v g' c :
  set_cell g i j v = Ok g' → c ≠ (i, j) → cell_at g' c = cell_at g c.
Proof.
  intros (r & Hr & Hj & ->)%set_cell_Ok Hc. destruct c as [i' j'].
  unfold cell_at; simpl. destruct (decide (i = i')) as [<-|Hi].
  - rewrite list_lookup_insert_eq by (by eapply lookup_lt_Some).
    rewrite Hr. simpl. rewrite list_lookup_insert_ne; [done | congruence].
  - by rewrite list_lookup_insert_ne.
Qed.

Lemma cell_at_set g i j v g' c :
  set_cell g i j v = Ok g' →
  cell_at g' c = if decide (c = (i, j)) then Some v else cell_at g c.
Proof.
  intros H. case_decide as Hc.
  - subst. by eapply cell_at_set_eq.
  - by eapply cell_at_set_ne.
Qed.

(** Writing back the old content of a cell gives back the old grid. *)
Lemma set_cell_restore g i j v0 v g1 :
  cell_at g (i, j) = Some v0 → set_cell g i j v = Ok g1 →
  set_cell g1 i j v0 = Ok g.
Proof.
  intros H0 (r & Hr & Hj & ->)%set_cell_Ok.
  unfold cell_at in H0; simpl in H0. rewrite Hr in H0; simpl in H0.
  apply set_cell_Ok. exists (<[j := v]> r). split_and!.
  - apply list_lookup_insert_eq. by eapply lookup_lt_Some.
  - by rewrite length_insert.
  - rewrite list_insert_insert_eq, list_insert_insert_eq.
    by rewrite (list_insert_id r), list_insert_id.
Qed.

Lemma set_cell_grid9 g i j v g' : set_cell g i j v = Ok g' → grid9 g → grid9 g'.
Proof.
  intros (r & Hr & Hj & ->)%set_cell_Ok [Hl Hf]. split.
  - by rewrite length_insert.
  - apply Forall_insert; [done|]. rewrite length_insert.
    by eapply (Forall_lookup_1 _ _ _ _ Hf).
Qed.

Lemma set_cell_readable g i j v g' :
  set_cell g i j v = Ok g' → readable g → readable g'.
Proof.
  intros H Hg c Hc. rewrite (cell_at_set _ _ _ _ _ _ H).
  case_decide; [by eexists | by apply Hg].
Qed.

Lemma elem_of_all_cells i j : (i, j) ∈ all_cells ↔ i < 9 ∧ j < 9.
Proof.
  unfold all_cells. rewrite list_elem_of_bind. split.
  - intros (i' & (j' & Hc & Hj%elem_of_seq)%list_elem_of_bind & Hi%elem_of_seq).
    apply list_elem_of_singleton in Hc as [= -> ->]. lia.
  - intros [Hi Hj]. exists i. rewrite elem_of_seq. split; [|lia].
    apply list_elem_of_bind. exists j. rewrite elem_of_seq.
    split; [by apply list_elem_of_singleton | lia].
Qed.

Lemma grid9_readable g : grid9 g → readable g.
Proof.
  intros [Hl Hf] [i j] [Hi Hj]%elem_of_all_cells.
  unfold cell_at; simpl.
  destruct (lookup_lt_is_Some_2 g i) as [r Hr]; [lia|]. rewrite Hr; simpl.
  apply lookup_lt_is_Some_2.
  rewrite (Forall_lookup_1 _ _ _ _ Hf Hr). lia.
Qed.

(** ** Board queries *)

Lemma find_empty_in_Some g cs c :
  find_empty_in g cs = Ok (Some c) → c ∈ cs ∧ cell_at g c = Some 0%Z.
Proof.
  induction cs as [|[i j] cs IH]; simpl; [done|].
  intros H. inv_ok. case_decide as Hv.
  - inv_ok. subst. split; [left | by apply get_cell_Ok].
  - destruct (IH H). split; [by right | done].
Qed.

Lemma find_empty_in_None g cs :
  find_empty_in g cs = Ok None →
  ∀ c, c ∈ cs → ∃ v, cell_at g c = Some v ∧ v ≠ 0%Z.
Proof.
  induction cs as [|[i j] cs IH]; simpl; intros H c Hc.
  - by apply elem_of_nil in Hc.
  - inv_ok. case_decide as Hv; [done|].
    apply elem_of_cons in Hc as [-> | Hc]; [|by apply IH].
    exists a. by rewrite <-get_cell_Ok.
Qed.

Lemma find_empty_in_not_NoFuel g cs : find_empty_in g cs ≠ NoFuel.
Proof.
  induction cs as [|[i j] cs IH]; simpl; [done|].
  rewrite bind_NoFuel. intros [H | (v & _ & H)].
  - by apply get_cell_not_NoFuel in H.
  - by case_decide.
Qed.

Lemma find_empty_in_defined g cs :
  (∀ c, c ∈ cs → is_Some (cell_at g c)) → ∃ r, find_empty_in g cs = Ok r.
Proof.
  induction cs as [|[i j] cs IH]; simpl; intros Hg; [by eexists|].
  destruct (get_cell_defined g i j) as [v ->]; [apply Hg; left|]. simpl.
  case_decide; [by eexists|]. apply IH. intros c Hc. apply Hg. by right.
Qed.

Lemma block_free_not_NoFuel g num cs : block_free g num cs ≠ NoFuel.
Proof.
  induction cs as [|[i j] cs IH]; simpl; [done|].
  rewrite bind_NoFuel. intros [H | (v & _ & H)].
  - by apply get_cell_not_NoFuel in H.
  - by case_decide.
Qed.

Lemma column_of_not_NoFuel g col rows : column_of g col rows ≠ NoFuel.
Proof.
  induction rows as [|i rows IH]; simpl; [done|].
  rewrite bind_NoFuel. intros [H | (v & _ & H)].
  - by apply get_cell_not_NoFuel in H.
  - apply bind_NoFuel in H as [H | (? & _ & H)]; done.
Qed.

Lemma is_valid_not_NoFuel g num row col : is_valid g num row col ≠ NoFuel.
Proof.
  unfold is_valid. rewrite bind_NoFuel. intros [H | (r & _ & H)].
  - by apply index_not_NoFuel in H.
  - case_decide; [done|]. apply bind_NoFuel in H as [H | (? & _ & H)].
    + by apply column_of_not_NoFuel in H.
    + case_decide; [done|]. by apply block_free_not_NoFuel in H.
Qed.

(** ** Backtracking: frame and rollback *)

Lemma backtracking_solve_fuel_S fuel g :
  backtracking_solve_fuel (S fuel) g =
  find_empty_cell g ≫= λ empty_cell,
    match empty_cell with
    | None => Ok (true, g)
    | Some (row, col) =>
        try_candidates (backtracking_solve_fuel fuel) row col candidates g
    end.
Proof. reflexivity. Qed.

Lemma keeps_givens_refl g : keeps_givens g g.
Proof. by intros c v. Qed.

Lemma keeps_givens_trans g1 g2 g3 :
  keeps_givens g1 g2 → keeps_givens g2 g3 → keeps_givens g1 g3.
Proof. intros H1 H2 c v Hc Hv. apply H2; [|done]. by apply H1. Qed.

Lemma set_cell_keeps_givens g row col v g' :
  cell_at g (row, col) = Some 0%Z → set_cell g row col v = Ok g' →
  keeps_givens g g'.
Proof.
  intros H0 Hset c w Hc Hw. rewrite (cell_at_set _ _ _ _ _ _ Hset).
  case_decide; [|done]. subst. congruence.
Qed.

Lemma try_candidates_frame solve row col nums g b g' :
  (∀ g1 b1 g2, solve g1 = Ok (b1, g2) → keeps_givens g1 g2) →
  cell_at g (row, col) = Some 0%Z →
  try_candidates solve row col nums g = Ok (b, g') →
  keeps_givens g g'.
Proof.
  intros Hsolve. revert g.
  induction nums as [|num rest IH]; simpl; intros g H0 H.
  - inv_ok. apply keeps_givens_refl.
  - inv_ok. destruct a; [|by apply IH].
    inv_ok. destruct a0 as [solved g2]. pose proof (Hsolve _ _ _ E1) as H12.
    pose proof (set_cell_keeps_givens _ _ _ _ _ H0 E0) as H01.
    destruct solved; inv_ok.
    + by eapply keeps_givens_trans.
    + assert (cell_at a0 (row, col) = Some 0%Z) as H3
        by (by eapply cell_at_set_eq).
      eapply keeps_givens_trans; [|by apply IH].
      intros c v Hc Hv. rewrite (cell_at_set _ _ _ _ _ _ E2).
      case_decide; [subst; congruence|]. apply H12; [|done]. by apply H01.
Qed.

Lemma backtracking_solve_fuel_frame fuel g b g' :
  backtracking_solve_fuel fuel g = Ok (b, g') → keeps_givens g g'.
Proof.
  revert g b g'. induction fuel as [|fuel IH]; intros g b g' H; [done|].
  rewrite backtracking_solve_fuel_S in H. inv_ok. destruct a as [[row col]|]; inv_ok; [|apply keeps_givens_refl].
  apply find_empty_in_Some in E as [_ E].
  eapply try_candidates_frame; [apply IH | done..].
Qed.

Lemma try_candidates_rollback solve row col nums g g' :
  (∀ g1 g2, solve g1 = Ok (false, g2) → g2 = g1) →
  cell_at g (row, col) = Some 0%Z →
  try_candidates solve row col nums g = Ok (false, g') → g' = g.
Proof.
  intros Hsolve H0. induction nums as [|num rest IH]; simpl; intros H.
  - by inv_ok.
  - inv_ok. destruct a; [|by apply IH].
    inv_ok. destruct a0 as [[] g2]; inv_ok.
    apply Hsolve in E1 as ->.
    pose proof (set_cell_restore _ _ _ _ _ _ H0 E0) as Hr.
    rewrite Hr in E2. inv_ok. by apply IH.
Qed.

Lemma backtracking_solve_fuel_rollback fuel g g' :
  backtracking_solve_fuel fuel g = Ok (false, g') → g' = g.
Proof.
  revert g g'. induction fuel as [|fuel IH]; intros g g' H; [done|].
  rewrite backtracking_solve_fuel_S in H. inv_ok. destruct a as [[row col]|]; inv_ok.
  apply find_empty_in_Some in E as [_ E].
  eapply try_candidates_rollback; [apply IH | done..].
Qed.

(** ** Backtracking: the fuel is sufficient *)

Lemma zeros_le_all g : zeros g ≤ length all_cells.
Proof. apply length_filter. Qed.

Lemma zeros_set_aux g row col v g1 (l : list cell) :
  v ≠ 0%Z → set_cell g row col v = Ok g1 →
  length (filter (fun c => cell_at g1 c = Some 0%Z) l)
  ≤ length (filter (fun c => cell_at g c = Some 0%Z) l)
  ∧ ((row, col) ∈ l → cell_at g (row, col) = Some 0%Z →
     length (filter (fun c => cell_at g1 c = Some 0%Z) l)
     < length (filter (fun c => cell_at g c = Some 0%Z) l)).
Proof.
  intros Hv Hset. induction l as [|c l [IHle IHlt]]; [split; [done|]|].
  { by intros ?%elem_of_nil. }
  rewrite !filter_cons, (cell_at_set _ _ _ _ _ c Hset).
  destruct (decide (c = (row, col))) as [->|Hc].
  - rewrite decide_False by congruence. split.
    + case_decide; simpl; lia.
    + intros _ H0. rewrite decide_True by done. simpl. lia.
  - split.
    + case_decide; simpl; lia.
    + intros [?|Hin]%elem_of_cons H0; [done|].
      specialize (IHlt Hin H0). case_decide; simpl; lia.
Qed.

Lemma zeros_set_lt g row col v g1 :
  (row, col) ∈ all_cells → cell_at g (row, col) = Some 0%Z → v ≠ 0%Z →
  set_cell g row col v = Ok g1 → zeros g1 < zeros g.
Proof.
  intros Hin H0 Hv Hset.
  by apply (zeros_set_aux g row col v g1 all_cells Hv Hset).
Qed.

Lemma candidates_nonzero : Forall (fun v => v ≠ 0%Z) candidates.
Proof. repeat constructor; done. Qed.

Lemma candidates_spec v : v ∈ candidates ↔ (1 ≤ v ≤ 9)%Z.
Proof.
  unfold candidates. rewrite list_elem_of_fmap. split.
  - intros (n & -> & Hn%elem_of_seq). lia.
  - intros Hv. exists (Z.to_nat v). rewrite elem_of_seq. lia.
Qed.

Lemma try_candidates_enough solve row col nums g :
  (row, col) ∈ all_cells → cell_at g (row, col) = Some 0%Z →
  Forall (fun v => v ≠ 0%Z) nums →
  (∀ g1, zeros g1 < zeros g → solve g1 ≠ NoFuel) →
  (∀ g1 g2, solve g1 = Ok (false, g2) → g2 = g1) →
  try_candidates solve row col nums g ≠ NoFuel.
Proof.
  intros Hin H0 Hnums Hsolve Hback.
  induction Hnums as [|num rest Hnum _ IH]; simpl; [done|].
  destruct (is_valid g num row col) as [[]| |] eqn:Ev; simpl; try done;
    [|by apply is_valid_not_NoFuel in Ev].
  destruct (set_cell g row col num) as [g1| |] eqn:Es; simpl; try done;
    [|by apply set_cell_not_NoFuel in Es].
  destruct (solve g1) as [[[] g2]| |] eqn:Er; simpl; try done.
  - apply Hback in Er as ->.
    by rewrite (set_cell_restore _ _ _ _ _ _ H0 Es).
  - apply Hsolve in Er; [done|]. by eapply zeros_set_lt.
Qed.

Lemma backtracking_solve_fuel_enough fuel g :
  zeros g < fuel → backtracking_solve_fuel fuel g ≠ NoFuel.
Proof.
  revert g. induction fuel as [|fuel IH]; intros g Hfuel; [lia|].
  rewrite backtracking_solve_fuel_S.
  destruct (find_empty_cell g) as [[[row col]|]| |] eqn:Ef; bind_step; try done.
  - apply find_empty_in_Some in Ef as [Hin H0].
    apply try_candidates_enough; auto using candidates_nonzero.
    + intros g1 Hlt. apply IH. lia.
    + apply backtracking_solve_fuel_rollback.
  - by apply find_empty_in_not_NoFuel in Ef.
Qed.

(** The model of [backtracking_solve] never runs out of fuel, whatever the
    shape of the grid. *)
Lemma backtracking_solve_not_NoFuel g : backtracking_solve g ≠ NoFuel.
Proof.
  apply backtracking_solve_fuel_enough. pose proof (zeros_le_all g). lia.
Qed.

(** ** What [is_valid] decides *)

Lemma column_of_Ok g col rows vs :
  column_of g col rows = Ok vs →
  ∀ v, v ∈ vs ↔ ∃ i, i ∈ rows ∧ cell_at g (i, col) = Some v.
Proof.
  revert vs. induction rows as [|i rows IH]; simpl; intros vs H v.
  - inv_ok. split; [by intros ?%elem_of_nil | by intros (? & ?%elem_of_nil & _)].
  - inv_ok. apply get_cell_Ok in E. rewrite elem_of_cons, (IH _ E0). split.
    + intros [-> | (i' & ? & ?)]; [exists i | exists i']; by rewrite elem_of_cons; auto.
    + intros (i' & [-> | ?]%elem_of_cons & Hi); [left; congruence | right; eauto].
Qed.

Lemma column_of_defined g col rows :
  (∀ i, i ∈ rows → is_Some (cell_at g (i, col))) →
  ∃ vs, column_of g col rows = Ok vs.
Proof.
  induction rows as [|i rows IH]; simpl; intros Hg; [by eexists|].
  destruct (get_cell_defined g i col) as [v ->]; [apply Hg; left|].
  destruct IH as [vs ->]; [intros; apply Hg; by right|]. by eexists.
Qed.

Lemma block_free_true g num cs :
  block_free g num cs = Ok true → ∀ c, c ∈ cs → cell_at g c ≠ Some num.
Proof.
  induction cs as [|[i j] cs IH]; simpl; intros H c Hc.
  - by apply elem_of_nil in Hc.
  - inv_ok. case_decide as Hv; [done|]. apply get_cell_Ok in E.
    apply elem_of_cons in Hc as [-> | Hc]; [congruence | by apply IH].
Qed.

Lemma block_free_false g num cs :
  block_free g num cs = Ok false → ∃ c, c ∈ cs ∧ cell_at g c = Some num.
Proof.
  induction cs as [|[i j] cs IH]; simpl; intros H; [done|].
  inv_ok. case_decide as Hv.
  - subst. exists (i, j). split; [left | by apply get_cell_Ok].
  - destruct (IH H) as (c & ? & ?). exists c. split; [by right | done].
Qed.

Lemma block_free_defined g num cs :
  (∀ c, c ∈ cs → is_Some (cell_at g c)) → ∃ b, block_free g num cs = Ok b.
Proof.
  induction cs as [|[i j] cs IH]; simpl; intros Hg; [by eexists|].
  destruct (get_cell_defined g i j) as [v ->]; [apply Hg; left|]. bind_step.
  case_decide; [by eexists|]. apply IH. intros c Hc. apply Hg. by right.
Qed.

Lemma block_bounds a b : b < 9 → a / 3 = b / 3 ↔ 3 * (b / 3) ≤ a < 3 * (b / 3) + 3.
Proof.
  intros Hb. pose proof (Nat.div_mod_eq a 3). pose proof (Nat.div_mod_eq b 3).
  pose proof (Nat.mod_upper_bound a 3). pose proof (Nat.mod_upper_bound b 3).
  lia.
Qed.

Lemma elem_of_block_cells_bounds sr sc i j :
  (i, j) ∈ block_cells sr sc ↔ sr ≤ i < sr + 3 ∧ sc ≤ j < sc + 3.
Proof.
  unfold block_cells. rewrite list_elem_of_bind. split.
  - intros (a & (b & Hab & Hb%elem_of_seq)%list_elem_of_bind & Ha%elem_of_seq).
    apply list_elem_of_singleton in Hab. injection Hab as -> ->. lia.
  - intros [Hi Hj]. exists (i - sr). rewrite elem_of_seq.
    split; [|lia]. apply list_elem_of_bind. exists (j - sc).
    rewrite elem_of_seq. split; [|lia].
    apply list_elem_of_singleton. f_equal; lia.
Qed.

Lemma elem_of_block_cells row col c :
  row < 9 → col < 9 →
  c ∈ block_cells (3 * (row / 3)) (3 * (col / 3)) ↔
  c ∈ all_cells ∧ same_block c (row, col).
Proof.
  intros Hr Hc. destruct c as [i j]. unfold same_block. cbn [fst snd].
  rewrite elem_of_block_cells_bounds, elem_of_all_cells, !block_bounds by done.
  pose proof (Nat.div_mod_eq row 3). pose proof (Nat.div_mod_eq col 3).
  lia.
Qed.

Lemma is_valid_true g num row col :
  (row, col) ∈ all_cells → is_valid g num row col = Ok true →
  ∀ c, c ∈ all_cells → in_scope row col c → cell_at g c ≠ Some num.
Proof.
  intros [Hr Hc]%elem_of_all_cells H [i j] [Hi Hj]%elem_of_all_cells Hs.
  unfold is_valid in H. inv_ok. apply index_Ok in E.
  case_decide as Hrow; [done|]. inv_ok. case_decide as Hcol; [done|].
  destruct Hs as [Hs | [Hs | Hs]]; cbn [fst snd] in Hs.
  - subst i. unfold cell_at; simpl. rewrite E; simpl. intros Hx.
    apply Hrow. by eapply list_elem_of_lookup_2.
  - subst j. intros Hx. apply Hcol. apply (column_of_Ok _ _ _ _ E0).
    exists i. rewrite elem_of_seq. split; [lia | done].
  - apply (block_free_true _ _ _ H). apply elem_of_block_cells; [done..|].
    by rewrite elem_of_all_cells.
Qed.

Lemma is_valid_false g num row col :
  grid9 g → (row, col) ∈ all_cells → is_valid g num row col = Ok false →
  ∃ c, c ∈ all_cells ∧ in_scope row col c ∧ cell_at g c = Some num.
Proof.
  intros [Hl Hf] [Hr Hc]%elem_of_all_cells H.
  unfold is_valid in H. inv_ok. apply index_Ok in E.
  case_decide as Hrow.
  { apply list_elem_of_lookup_1 in Hrow as [j Hj]. exists (row, j).
    pose proof (Forall_lookup_1 _ _ _ _ Hf E) as Hlen. simpl in Hlen.
    pose proof (lookup_lt_Some _ _ _ Hj). rewrite elem_of_all_cells.
    split_and!; [done | lia | by left |].
    unfold cell_at; simpl. by rewrite E. }
  inv_ok. case_decide as Hcol.
  { apply (column_of_Ok _ _ _ _ E0) in Hcol as (i & Hi%elem_of_seq & Hv).
    exists (i, col). rewrite elem_of_all_cells.
    split_and!; [lia | done | by right; left | done]. }
  apply block_free_false in H as (c & [Hin Hb]%elem_of_block_cells & Hv);
    [|done..].
  exists c. split_and!; [done | by right; right | done].
Qed.

Lemma is_valid_defined g num row col :
  readable g → (row, col) ∈ all_cells → ∃ b, is_valid g num row col = Ok b.
Proof.
  intros Hg Hin. pose proof Hin as [Hr Hc]%elem_of_all_cells.
  unfold is_valid.
  destruct (Hg _ Hin) as [v Hv]. unfold cell_at in Hv; simpl in Hv.
  destruct (g !! row) as [r|] eqn:Er; [|done].
  replace (index g row) with (Ok r) by (symmetry; by apply index_Ok).
  bind_step. case_decide; [by eexists|].
  destruct (column_of_defined g col (seq 0 9)) as [vs ->].
  { intros i Hi%elem_of_seq. apply Hg, elem_of_all_cells. lia. }
  bind_step. case_decide; [by eexists|].
  apply block_free_defined. intros c [Hc' _]%elem_of_block_cells; auto.
Qed.

(** ** Backtracking returns on every readable grid *)

Lemma try_candidates_defined solve row col nums g :
  readable g → (row, col) ∈ all_cells → cell_at g (row, col) = Some 0%Z →
  Forall (fun v => v ≠ 0%Z) nums →
  (∀ g1, readable g1 → zeros g1 < zeros g → ∃ r, solve g1 = Ok r) →
  (∀ g1 g2, solve g1 = Ok (false, g2) → g2 = g1) →
  ∃ r, try_candidates solve row col nums g = Ok r.
Proof.
  intros Hg Hin H0 Hnums Hsolve Hback.
  induction Hnums as [|num rest Hnum _ IH]; simpl; [by eexists|].
  destruct (is_valid_defined g num row col Hg Hin) as [[] ->]; bind_step;
    [|done].
  destruct (set_cell_defined g row col num) as [g1 Es]; [by rewrite H0|].
  rewrite Es. bind_step.
  destruct (Hsolve g1) as [[[] g2] Er].
  { by eapply set_cell_readable. }
  { by eapply zeros_set_lt. }
  - rewrite Er. by eexists.
  - rewrite Er. bind_step. apply Hback in Er as ->.
    rewrite (set_cell_restore _ _ _ _ _ _ H0 Es). by bind_step.
Qed.

Lemma backtracking_solve_fuel_defined fuel g :
  readable g → zeros g < fuel → ∃ r, backtracking_solve_fuel fuel g = Ok r.
Proof.
  revert g. induction fuel as [|fuel IH]; intros g Hg Hfuel; [lia|].
  rewrite backtracking_solve_fuel_S.
  destruct (find_empty_in_defined g all_cells Hg) as [e Ef].
  unfold find_empty_cell. rewrite Ef. bind_step.
  destruct e as [[row col]|]; [|by eexists].
  apply find_empty_in_Some in Ef as [Hin H0].
  apply try_candidates_defined; auto using candidates_nonzero.
  - intros g1 Hg1 Hlt. apply IH; [done | lia].
  - apply backtracking_solve_fuel_rollback.
Qed.

Lemma backtracking_solve_defined g :
  readable g → ∃ b g', backtracking_solve g = Ok (b, g').
Proof.
  intros Hg. destruct (backtracking_solve_fuel_defined (S (length all_cells)) g)
    as [[b g'] H]; [done | | by exists b, g'].
  pose proof (zeros_le_all g). lia.
Qed.

(** Any property that single-cell writes preserve survives the search. *)
Lemma try_candidates_preserves (P : grid → Prop) solve row col nums g b g' :
  (∀ g i j v g', set_cell g i j v = Ok g' → P g → P g') →
  (∀ g1 b1 g2, solve g1 = Ok (b1, g2) → P g1 → P g2) →
  try_candidates solve row col nums g = Ok (b, g') → P g → P g'.
Proof.
  intros Hset Hsolve. revert g.
  induction nums as [|num rest IH]; simpl; intros g H Hg; [by inv_ok|].
  inv_ok. destruct a; [|by eapply IH].
  inv_ok. destruct a0 as [[] g2]; inv_ok; eauto 6.
Qed.

Lemma backtracking_solve_fuel_preserves (P : grid → Prop) fuel g b g' :
  (∀ g i j v g', set_cell g i j v = Ok g' → P g → P g') →
  backtracking_solve_fuel fuel g = Ok (b, g') → P g → P g'.
Proof.
  intros Hset. revert g b g'.
  induction fuel as [|fuel IH]; intros g b g' H Hg; [done|].
  rewrite backtracking_solve_fuel_S in H. inv_ok.
  destruct a as [[row col]|]; inv_ok; [|done].
  eapply try_candidates_preserves; eauto.
Qed.

(** ** Backtracking: a reported solution is one *)

Lemma peer_sym c1 c2 : peer c1 c2 → peer c2 c1.
Proof.
  unfold peer, same_block. intros [Hne H]. split; [congruence|].
  destruct H as [? | [? | [? ?]]]; auto.
Qed.

Lemma peer_in_scope row col c : peer (row, col) c → in_scope row col c.
Proof.
  unfold peer, in_scope, same_block. cbn [fst snd]. intros [_ H].
  destruct H as [? | [? | [? ?]]]; auto.
Qed.

Lemma in_scope_peer row col c :
  in_scope row col c → c ≠ (row, col) → peer (row, col) c.
Proof.
  unfold peer, in_scope, same_block. cbn [fst snd]. intros H Hne.
  split; [congruence|]. destruct H as [? | [? | [? ?]]]; auto.
Qed.

Lemma place_no_conflict g row col num g1 :
  (row, col) ∈ all_cells → no_conflict g →
  is_valid g num row col = Ok true → set_cell g row col num = Ok g1 →
  no_conflict g1.
Proof.
  intros Hin Hg Hv Hset c1 c2 v H1 H2 Hp.
  rewrite !(cell_at_set _ _ _ _ _ _ Hset).
  pose proof (is_valid_true _ _ _ _ Hin Hv) as Hfree.
  destruct (decide (c1 = (row, col))) as [->|N1];
    destruct (decide (c2 = (row, col))) as [->|N2].
  - by destruct Hp.
  - intros [= <-] Hc2. by destruct (Hfree c2 H2 (peer_in_scope _ _ _ Hp)).
  - intros Hc1 [= <-].
    by destruct (Hfree c1 H1 (peer_in_scope _ _ _ (peer_sym _ _ Hp))).
  - by apply Hg.
Qed.

Lemma place_digits g row col num g1 :
  (0 ≤ num ≤ 9)%Z → digits g → set_cell g row col num = Ok g1 → digits g1.
Proof.
  intros Hnum Hg Hset c v Hc. rewrite (cell_at_set _ _ _ _ _ _ Hset).
  case_decide; [by intros [= <-] | by apply Hg].
Qed.

Lemma full_is_solution g :
  digits g → no_conflict g →
  (∀ c, c ∈ all_cells → ∃ v, cell_at g c = Some v ∧ v ≠ 0%Z) →
  filled g ∧ no_repeat g.
Proof.
  intros Hd Hn Hf. split.
  - intros c Hc. destruct (Hf c Hc) as (v & Hv & Hv0). exists v.
    split; [done|]. specialize (Hd c v Hc Hv). lia.
  - intros c1 c2 H1 H2 Hp Heq. destruct (Hf c1 H1) as (v & Hv & Hv0).
    apply Hv0. eapply Hn; [exact H1 | exact H2 | done..|]. by rewrite <-Heq.
Qed.

Lemma try_candidates_sound solve row col nums g g' :
  (∀ g1 g2, digits g1 → no_conflict g1 → solve g1 = Ok (true, g2) →
     filled g2 ∧ no_repeat g2) →
  (∀ g1 g2, solve g1 = Ok (false, g2) → g2 = g1) →
  (row, col) ∈ all_cells → cell_at g (row, col) = Some 0%Z →
  Forall (fun v => 0 ≤ v ≤ 9)%Z nums →
  digits g → no_conflict g →
  try_candidates solve row col nums g = Ok (true, g') →
  filled g' ∧ no_repeat g'.
Proof.
  intros Hsolve Hback Hin H0 Hnums Hd Hn.
  induction Hnums as [|num rest Hnum _ IH]; simpl; intros H; [by inv_ok|].
  inv_ok. destruct a; [|by apply IH].
  inv_ok. destruct a0 as [[] g2]; inv_ok.
  - eapply Hsolve; [| |done].
    + by eapply place_digits.
    + by eapply place_no_conflict.
  - apply Hback in E1 as ->.
    rewrite (set_cell_restore _ _ _ _ _ _ H0 E0) in E2. inv_ok. by apply IH.
Qed.

Lemma candidates_digits : Forall (fun v => 0 ≤ v ≤ 9)%Z candidates.
Proof. apply Forall_forall. intros v Hv%candidates_spec. lia. Qed.

Lemma backtracking_solve_fuel_sound fuel g g' :
  digits g → no_conflict g →
  backtracking_solve_fuel fuel g = Ok (true, g') → filled g' ∧ no_repeat g'.
Proof.
  revert g g'. induction fuel as [|fuel IH]; intros g g' Hd Hn H; [done|].
  rewrite backtracking_solve_fuel_S in H. inv_ok.
  destruct a as [[row col]|]; inv_ok.
  - apply find_empty_in_Some in E as [Hin H0].
    eapply try_candidates_sound; eauto using candidates_digits.
    apply backtracking_solve_fuel_rollback.
  - apply full_is_solution; [done..|]. by apply find_empty_in_None.
Qed.

(** ** Backtracking: an existing solution is found *)

Lemma solves_digits s g : grid9 g → solves s g → digits g.
Proof.
  intros _ (_ & Hf & _ & Hk) c v Hc Hv.
  destruct (decide (v = 0%Z)) as [->|Hv0]; [lia|].
  destruct (Hf c Hc) as (w & Hw & Hw9). rewrite (Hk c v Hv Hv0) in Hw.
  injection Hw as ->. lia.
Qed.

Lemma solves_no_conflict s g : solves s g → no_conflict g.
Proof.
  intros (_ & _ & Hn & Hk) c1 c2 v H1 H2 Hp Hc1 Hc2.
  destruct (decide (v = 0%Z)) as [->|Hv0]; [done|].
  destruct (Hn c1 c2 H1 H2 Hp).
  by rewrite (Hk c1 v Hc1 Hv0), (Hk c2 v Hc2 Hv0).
Qed.

Lemma solves_place s g row col v g1 :
  solves s g → cell_at s (row, col) = Some v →
  set_cell g row col v = Ok g1 → solves s g1.
Proof.
  intros (H9 & Hf & Hn & Hk) Hs Hset. split_and!; [done..|].
  intros c w. rewrite (cell_at_set _ _ _ _ _ _ Hset).
  case_decide; [intros [= <-] _; by subst | apply Hk].
Qed.

Lemma try_candidates_complete s solve row col nums g :
  grid9 g → solves s g →
  (row, col) ∈ all_cells → cell_at g (row, col) = Some 0%Z →
  Forall (fun v => v ≠ 0%Z) nums →
  (∀ v, cell_at s (row, col) = Some v → v ∈ nums) →
  (∀ g1, grid9 g1 → zeros g1 < zeros g → ∃ r, solve g1 = Ok r) →
  (∀ g1, grid9 g1 → zeros g1 < zeros g → solves s g1 →
     ∃ g2, solve g1 = Ok (true, g2)) →
  (∀ g1 g2, solve g1 = Ok (false, g2) → g2 = g1) →
  ∃ g', try_candidates solve row col nums g = Ok (true, g').
Proof.
  intros H9 Hs Hin H0 Hnums Hmem Htot Hsolve Hback.
  pose proof Hs as (_ & Hf & Hn & Hk).
  destruct (Hf _ Hin) as (v & Hv & Hv9).
  induction Hnums as [|num rest Hnum _ IH]; simpl.
  { specialize (Hmem v Hv). by apply elem_of_nil in Hmem. }
  destruct (is_valid_defined g num row col (grid9_readable _ H9) Hin)
    as [[] Ev]; rewrite Ev; bind_step.
  - destruct (set_cell_defined g row col num) as [g1 Es]; [by rewrite H0|].
    rewrite Es. bind_step.
    assert (grid9 g1) as H91 by (by eapply set_cell_grid9).
    assert (zeros g1 < zeros g) as Hlt by (by eapply zeros_set_lt).
    destruct (Htot g1 H91 Hlt) as [[[] g2] Er]; rewrite Er; bind_step.
    { by eexists. }
    apply Hback in Er as Heq. subst g2.
    rewrite (set_cell_restore _ _ _ _ _ _ H0 Es). bind_step.
    apply IH. intros w Hw. specialize (Hmem w Hw).
    apply elem_of_cons in Hmem as [-> | ?]; [|done].
    destruct (Hsolve g1 H91 Hlt) as [g2 Hg2]; [|congruence].
    by eapply solves_place.
  - apply IH. intros w Hw. specialize (Hmem w Hw).
    apply elem_of_cons in Hmem as [-> | ?]; [|done].
    apply is_valid_false in Ev as (c & Hc & Hsc & Hcv); [|done..].
    assert (c ≠ (row, col)) as Hne by (intros ->; congruence).
    destruct (Hn (row, col) c Hin Hc (in_scope_peer _ _ _ Hsc Hne)).
    by rewrite Hw, (Hk c num Hcv Hnum).
Qed.

Lemma backtracking_solve_fuel_complete s fuel g :
  grid9 g → zeros g < fuel → solves s g →
  ∃ g', backtracking_solve_fuel fuel g = Ok (true, g').
Proof.
  revert g. induction fuel as [|fuel IH]; intros g H9 Hfuel Hs; [lia|].
  rewrite backtracking_solve_fuel_S.
  destruct (find_empty_in_defined g all_cells (grid9_readable _ H9)) as [e Ef].
  unfold find_empty_cell. rewrite Ef. bind_step.
  destruct e as [[row col]|]; [|by eexists].
  apply find_empty_in_Some in Ef as [Hin H0].
  eapply try_candidates_complete; eauto using candidates_nonzero.
  - intros v Hv. apply candidates_spec.
    destruct Hs as (_ & Hf & _). destruct (Hf _ Hin) as (w & Hw & ?).
    congruence.
  - intros g1 H91 Hlt. apply backtracking_solve_fuel_defined;
      [by apply grid9_readable | lia].
  - intros g1 H91 Hlt Hs1. apply IH; [done | lia | done].
  - apply backtracking_solve_fuel_rollback.
Qed.

(** On a puzzle with a solution the search succeeds, and what it returns is
    a solution of that puzzle. *)
Lemma backtracking_solve_finds s g :
  grid9 g → solves s g →
  ∃ g', backtracking_solve g = Ok (true, g') ∧ solves g' g.
Proof.
  intros H9 Hs.
  destruct (backtracking_solve_fuel_complete s (S (length all_cells)) g)
    as [g' Hg']; [done | pose proof (zeros_le_all g); lia | done |].
  exists g'. split; [done|].
  destruct (backtracking_solve_fuel_sound _ _ _
              (solves_digits _ _ H9 Hs) (solves_no_conflict _ _ Hs) Hg').
  split_and!; [|done..|by eapply backtracking_solve_fuel_frame].
  eapply (backtracking_solve_fuel_preserves grid9); [|done..].
  intros. by eapply set_cell_grid9.
Qed.

Lemma backtracking_solve_unique s g :
  grid9 g → solves s g → (∀ s', solves s' g → s' = s) →
  backtracking_solve g = Ok (true, s).
Proof.
  intros H9 Hs Huniq.
  destruct (backtracking_solve_finds s g H9 Hs) as (g' & Hg' & Hs').
  by rewrite <-(Huniq g' Hs').
Qed.

(** ** The neighbour relation of AC-3 *)

Lemma block_origin n : n - n mod 3 = 3 * (n / 3).
Proof. pose proof (Nat.div_mod_eq n 3). lia. Qed.

Lemma block_index a b : b < 3 → (3 * a + b) / 3 = a ∧ (3 * a + b) mod 3 = b.
Proof.
  intros Hb.
  pose proof (Nat.div_mod_eq (3 * a + b) 3).
  pose proof (Nat.mod_upper_bound (3 * a + b) 3). lia.
Qed.

Lemma neighbors_fold_spec (row col : nat) (ks : list nat) (acc : gset cell) (n : cell) :
  n ∈ foldl (fun (neighbors : gset cell) k =>
           let n1 := if decide (k ≠ col) then neighbors ∪ {[(row, k)]} else neighbors in
           let n2 := if decide (k ≠ row) then n1 ∪ {[(k, col)]} else n1 in
           n2 ∪ {[(row - row mod 3 + k / 3, col - col mod 3 + k mod 3)]})
        acc ks
  ↔ n ∈ acc ∨ ∃ k, k ∈ ks ∧
      ((k ≠ col ∧ n = (row, k)) ∨ (k ≠ row ∧ n = (k, col)) ∨
       n = (row - row mod 3 + k / 3, col - col mod 3 + k mod 3)).
Proof.
  revert acc. induction ks as [|k ks IH]; intros acc; simpl.
  - split; [by left|]. intros [?|(k & ?%elem_of_nil & _)]; done.
  - rewrite IH. clear IH. split.
    + intros [Hacc | (k' & Hk' & H)].
      * apply elem_of_union in Hacc as [Hacc | ->%elem_of_singleton].
        2:{ right. exists k. split; [left | auto]. }
        destruct (decide (k ≠ row)).
        -- apply elem_of_union in Hacc as [Hacc | ->%elem_of_singleton].
           2:{ right. exists k. split; [left | auto]. }
           destruct (decide (k ≠ col)); [|by left].
           apply elem_of_union in Hacc as [Hacc | ->%elem_of_singleton];
             [by left|].
           right. exists k. split; [left | auto].
        -- destruct (decide (k ≠ col)); [|by left].
           apply elem_of_union in Hacc as [Hacc | ->%elem_of_singleton];
             [by left|].
           right. exists k. split; [left | auto].
      * right. exists k'. split; [by right | done].
    + intros [Hacc | (k' & [-> | Hk']%elem_of_cons & H)].
      * left. destruct (decide (k ≠ col)), (decide (k ≠ row)); set_solver.
      * left. destruct H as [[? ->] | [[? ->] | ->]];
          destruct (decide (k ≠ col)), (decide (k ≠ row)); set_solver.
      * right. by exists k'.
Qed.

Lemma elem_of_get_neighbors row col n :
  row < 9 → col < 9 →
  n ∈ get_neighbors row col ↔ n ∈ all_cells ∧ peer (row, col) n.
Proof.
  intros Hr Hc. unfold get_neighbors.
  rewrite elem_of_difference, neighbors_fold_spec, elem_of_singleton.
  destruct n as [i j]. rewrite elem_of_all_cells.
  unfold peer, same_block. cbn [fst snd]. rewrite !block_origin.
  pose proof (Nat.div_mod_eq row 3). pose proof (Nat.div_mod_eq col 3).
  pose proof (Nat.mod_upper_bound row 3). pose proof (Nat.mod_upper_bound col 3).
  pose proof (Nat.div_mod_eq i 3). pose proof (Nat.div_mod_eq j 3).
  pose proof (Nat.mod_upper_bound i 3). pose proof (Nat.mod_upper_bound j 3).
  split.
  - intros [[?%elem_of_empty | (k & Hk%elem_of_seq & H')] Hne]; [done|].
    assert (k / 3 < 3 ∧ k mod 3 < 3) as [? ?].
    { pose proof (Nat.div_mod_eq k 3). pose proof (Nat.mod_upper_bound k 3). lia. }
    assert (i = (i, j).1 ∧ j = (i, j).2) as [Hi Hj] by done.
    destruct H' as [[? Heq] | [[? Heq] | Heq]];
      rewrite Heq in Hi, Hj; cbn [fst snd] in Hi, Hj;
      (split; [lia|]); (split; [congruence|]); [left | right; left | right; right];
      lia.
  - intros ([Hi Hj] & Hne & H'). split; [|congruence]. right.
    destruct (decide (i = row)) as [->|Hi'].
    { exists j. rewrite elem_of_seq. split; [lia|]. left. split; congruence. }
    destruct (decide (j = col)) as [->|Hj'].
    { exists i. rewrite elem_of_seq. split; [lia|]. right; left. split; congruence. }
    destruct H' as [? | [? | [Hbi Hbj]]]; [done..|].
    exists (3 * (i - 3 * (row / 3)) + (j - 3 * (col / 3))).
    rewrite elem_of_seq. split; [lia|]. right; right.
    destruct (block_index (i - 3 * (row / 3)) (j - 3 * (col / 3))) as [-> ->];
      [lia|]. f_equal; lia.
Qed.

Lemma get_neighbors_not_self row col : (row, col) ∉ get_neighbors row col.
Proof.
  unfold get_neighbors. rewrite elem_of_difference, elem_of_singleton.
  by intros [_ H].
Qed.

(** ** The work-list loop of AC-3 *)

Lemma total_size_insert (domains : gmap cell (gset Z)) k d d' :
  domains !! k = Some d →
  total_size (<[k := d']> domains) + size d = total_size domains + size d'.
Proof.
  intros Hk. unfold total_size.
  rewrite (map_fold_delete_L _ _ k d domains); [|intros; lia | done].
  rewrite <-(insert_delete_eq domains).
  rewrite map_fold_insert_L; [lia | intros; lia | apply lookup_delete_eq].
Qed.

Lemma dom_of_Ok (domains : gmap cell (gset Z)) key d :
  dom_of domains key = Ok d ↔ domains !! key = Some d.
Proof. unfold dom_of. destruct (domains !! key); split; congruence. Qed.

Lemma gset_size_1 (d : gset Z) : size d = 1 → ∃ v, d = {[v]}.
Proof.
  intros (v & Hv)%size_1_elem_of. exists v. by apply leibniz_equiv.
Qed.

(** What one call of [revise] does. *)
Lemma revise_Ok domains xi xj revised domains' :
  revise domains xi xj = Ok (revised, domains') →
  (revised = false ∧ domains' = domains) ∨
  (revised = true ∧ ∃ dj v,
     domains !! xj = Some dj ∧ domains !! xi = Some {[v]} ∧ v ∈ dj ∧
     domains' = <[xj := dj ∖ {[v]}]> domains).
Proof.
  unfold revise. intros H. inv_ok.
  apply dom_of_Ok in E, E0. case_decide as Hsz; [|inv_ok; by left].
  case_decide as Hcap; inv_ok; [|by left].
  right. split; [done|]. apply gset_size_1 in Hsz as [v ->].
  exists a, v. split_and!; [done..| |done].
  apply set_choose_L in Hcap as [w Hw]. set_solver.
Qed.

Lemma revise_not_NoFuel domains xi xj : revise domains xi xj ≠ NoFuel.
Proof.
  unfold revise, dom_of.
  destruct (domains !! xj); bind_step; [|done].
  destruct (domains !! xi); bind_step; [|done].
  repeat case_decide; done.
Qed.

Lemma revise_defined (domains : gmap cell (gset Z)) xi xj :
  xi ∈ dom domains → xj ∈ dom domains → ∃ r, revise domains xi xj = Ok r.
Proof.
  intros [di Hi]%elem_of_dom [dj Hj]%elem_of_dom. unfold revise, dom_of.
  rewrite Hi, Hj. bind_step. repeat case_decide; by eexists.
Qed.

Lemma revise_neighbors_not_NoFuel xi neighbors domains queue :
  revise_neighbors xi neighbors domains queue ≠ NoFuel.
Proof.
  revert domains queue.
  induction neighbors as [|n rest IH]; intros domains queue; simpl; [done|].
  case_decide; [|done].
  destruct (revise domains xi n) as [[[] domains']| |] eqn:Er; bind_step;
    try done.
  - unfold dom_of. destruct (domains' !! xi); bind_step; [|done].
    case_decide; [done | apply IH].
  - by apply revise_not_NoFuel in Er.
Qed.

(** A pass over the neighbours keeps the keys of [domains], and every cell it
    appends to the queue has paid for it with one candidate. *)
Lemma revise_neighbors_Ok xi neighbors domains queue domains' queue' :
  revise_neighbors xi neighbors domains queue = Ok (Some (domains', queue')) →
  dom domains' = dom domains ∧
  length queue' + total_size domains' = length queue + total_size domains ∧
  (∀ c, c ∈ queue' → c ∈ queue ∨ c ∈ neighbors).
Proof.
  revert domains queue.
  induction neighbors as [|n rest IH]; intros domains queue; simpl; intros H.
  { inv_ok. split_and!; [done..|by left]. }
  case_decide as Hn; [|done]. inv_ok. destruct a as [revised d1].
  apply revise_Ok in E as [[-> ->] | (-> & dj & v & Hj & Hi & Hv & ->)].
  - destruct (IH _ _ H) as (? & ? & Hq). split_and!; [done..|].
    intros c Hc. destruct (Hq c Hc); [by left | right; by right].
  - inv_ok. case_decide; [done|].
    destruct (IH _ _ H) as (Hd & Hm & Hq). split_and!.
    + rewrite Hd. apply dom_insert_lookup_L. by eexists.
    + rewrite Hm, length_app. simpl.
      pose proof (total_size_insert domains n dj (dj ∖ {[v]}) Hj) as Ht.
      assert (size dj = size (dj ∖ {[v]}) + 1) as Hs.
      { rewrite size_difference by set_solver. rewrite size_singleton.
        assert (size dj ≠ 0); [|lia].
        apply size_non_empty_iff. set_solver. }
      lia.
    + intros c Hc. destruct (Hq c Hc) as [[?|?%list_elem_of_singleton]%elem_of_app|?].
      * by left.
      * subst. right; left.
      * right; by right.
Qed.

(** With the dequeued cell and its neighbours among the keys, and the cell
    not its own neighbour, a pass neither raises nor takes the early
    [return False]. *)
Lemma revise_neighbors_defined (xi : cell) (neighbors : list cell)
    (domains : gmap cell (gset Z)) (queue : list cell) :
  xi ∈ dom domains → (∀ n, n ∈ neighbors → n ∈ dom domains) → xi ∉ neighbors →
  ∃ domains' queue',
    revise_neighbors xi neighbors domains queue = Ok (Some (domains', queue')).
Proof.
  revert domains queue.
  induction neighbors as [|n rest IH]; intros domains queue Hxi Hns Hself; simpl.
  { by eexists _, _. }
  rewrite decide_True by (apply Hns; left).
  destruct (revise_defined domains xi n Hxi) as [[revised d1] Er];
    [apply Hns; left|].
  rewrite Er. bind_step.
  assert (xi ≠ n) as Hne by (intros ->; apply Hself; left).
  assert (xi ∉ rest) as Hself' by (intros ?; apply Hself; by right).
  apply revise_Ok in Er as [[-> ->] | (-> & dj & v & Hj & Hi & Hv & ->)].
  - apply IH; [done | intros; apply Hns; by right | done].
  - unfold dom_of. rewrite lookup_insert_ne by done. rewrite Hi. bind_step.
    rewrite size_singleton. rewrite decide_False by done.
    apply IH; [| |done].
    + rewrite dom_insert_lookup_L by (by eexists). done.
    + intros n' Hn'. rewrite dom_insert_lookup_L by (by eexists).
      apply Hns. by right.
Qed.

Lemma revise_neighbors_sound s xi neighbors domains queue domains' queue' :
  no_repeat s → xi ∈ all_cells →
  (∀ n, n ∈ neighbors → n ∈ all_cells ∧ peer xi n) →
  sol_inv s domains →
  revise_neighbors xi neighbors domains queue = Ok (Some (domains', queue')) →
  sol_inv s domains'.
Proof.
  intros Hs Hxi. revert domains queue.
  induction neighbors as [|n rest IH]; intros domains queue Hns Hinv; simpl;
    intros H.
  { by inv_ok. }
  case_decide as Hn; [|done]. inv_ok. destruct a as [revised d1].
  destruct (Hns n) as [Hnin Hpeer]; [left|].
  assert (∀ n', n' ∈ rest → n' ∈ all_cells ∧ peer xi n') as Hrest
    by (intros; apply Hns; by right).
  apply revise_Ok in E as [[-> ->] | (-> & dj & v & Hj & Hi & Hv & ->)].
  - by eapply IH.
  - inv_ok. case_decide; [done|]. eapply IH; [done| |done].
    intros c Hc. destruct (decide (c = n)) as [->|Hcn].
    + rewrite lookup_insert_eq.
      destruct (Hinv n Hnin) as (d & w & Hd & Hw & Hwd).
      exists (dj ∖ {[v]}), w. split_and!; [done..|].
      assert (d = dj) as -> by congruence.
      apply elem_of_difference. split; [done|].
      intros ->%elem_of_singleton.
      destruct (Hinv xi Hxi) as (d' & w' & Hd' & Hw' & Hwd').
      assert (d' = {[v]}) as -> by congruence.
      apply elem_of_singleton in Hwd' as ->.
      destruct (Hs xi n Hxi Hnin Hpeer). congruence.
    + rewrite lookup_insert_ne by done. by apply Hinv.
Qed.

Section revision_loop_facts.
Variable set_order : gset cell → list cell.

Lemma revision_loop_enough fuel domains queue :
  length queue + total_size domains ≤ fuel →
  revision_loop set_order fuel domains queue ≠ NoFuel.
Proof.
  revert domains queue.
  induction fuel as [|fuel IH]; intros domains [|[row col] queue] Hfuel;
    simpl in *; try done; [lia|].
  destruct (revise_neighbors _ _ _ _) as [[[d1 q1]|]| |] eqn:Er; bind_step;
    try done.
  - apply revise_neighbors_Ok in Er as (_ & Hm & _). apply IH. lia.
  - by apply revise_neighbors_not_NoFuel in Er.
Qed.

Lemma revision_loop_dom fuel domains queue domains' :
  revision_loop set_order fuel domains queue = Ok (Some domains') →
  dom domains' = dom domains.
Proof.
  revert domains queue.
  induction fuel as [|fuel IH]; intros domains [|[row col] queue] H;
    simpl in *; inv_ok; try done.
  destruct a as [[d1 q1]|]; inv_ok.
  apply revise_neighbors_Ok in E as (Hd & _ & _).
  rewrite <-Hd. by eapply IH.
Qed.

(** Each element the iteration yields is an element of the set, the only
    fact about the iteration order of a Python set that is used. *)
Hypothesis set_order_sound : ∀ s c, c ∈ set_order s → c ∈ s.

Lemma neighbors_in_range row col n :
  (row, col) ∈ all_cells → n ∈ set_order (get_neighbors row col) →
  n ∈ all_cells ∧ peer (row, col) n.
Proof.
  intros [Hr Hc]%elem_of_all_cells Hn%set_order_sound.
  by apply elem_of_get_neighbors in Hn.
Qed.

Lemma revision_loop_defined (fuel : nat) (domains : gmap cell (gset Z))
    (queue : list cell) :
  (∀ c, c ∈ all_cells → c ∈ dom domains) →
  (∀ c, c ∈ queue → c ∈ all_cells) →
  length queue + total_size domains ≤ fuel →
  ∃ domains', revision_loop set_order fuel domains queue = Ok (Some domains').
Proof.
  revert domains queue.
  induction fuel as [|fuel IH]; intros domains [|[row col] queue] Hk Hq Hfuel;
    simpl in *; try (by eexists); [lia|].
  assert ((row, col) ∈ all_cells) as Hin by (apply Hq; left).
  destruct (revise_neighbors_defined (row, col)
              (set_order (get_neighbors row col)) domains queue)
    as (d1 & q1 & Er).
  { by apply Hk. }
  { intros n Hn. apply Hk. by eapply neighbors_in_range. }
  { intros Hself%set_order_sound. by apply get_neighbors_not_self in Hself. }
  rewrite Er. bind_step.
  pose proof (revise_neighbors_Ok _ _ _ _ _ _ Er) as (Hd & Hm & Hq1).
  apply IH.
  - intros c Hc. rewrite Hd. by apply Hk.
  - intros c Hc. destruct (Hq1 c Hc) as [?|Hn]; [apply Hq; by right|].
    by eapply neighbors_in_range.
  - lia.
Qed.

Lemma revision_loop_sound s fuel domains queue domains' :
  no_repeat s → sol_inv s domains →
  (∀ c, c ∈ queue → c ∈ all_cells) →
  revision_loop set_order fuel domains queue = Ok (Some domains') →
  sol_inv s domains'.
Proof.
  intros Hs. revert domains queue.
  induction fuel as [|fuel IH]; intros domains [|[row col] queue] Hinv Hq H;
    simpl in *; inv_ok; try done.
  destruct a as [[d1 q1]|]; inv_ok.
  assert ((row, col) ∈ all_cells) as Hin by (apply Hq; left).
  pose proof (revise_neighbors_Ok _ _ _ _ _ _ E) as (_ & _ & Hq1).
  eapply IH; [| |done].
  - eapply revise_neighbors_sound; [done | exact Hin | | done | done].
    intros n Hn. by eapply neighbors_in_range.
  - intros c Hc. destruct (Hq1 c Hc) as [?|Hn]; [apply Hq; by right|].
    by eapply neighbors_in_range.
Qed.
End revision_loop_facts.

(** ** Domain initialisation *)

(** The three cells read in iteration [k] of [get_domain] are scanned
    cells in the scope of the cell. *)
Lemma discard_reads row col k c :
  row < 9 → col < 9 → k < 9 →
  c ∈ [(row, k); (k, col);
       (row - row mod 3 + k / 3, col - col mod 3 + k mod 3)] →
  c ∈ all_cells ∧ in_scope row col c.
Proof.
  intros Hr Hc Hk. rewrite !block_origin.
  pose proof (Nat.div_mod_eq row 3). pose proof (Nat.div_mod_eq col 3).
  pose proof (Nat.mod_upper_bound row 3). pose proof (Nat.mod_upper_bound col 3).
  pose proof (Nat.div_mod_eq k 3). pose proof (Nat.mod_upper_bound k 3).
  rewrite !elem_of_cons, elem_of_nil.
  intros [-> | [-> | [-> | []]]]; rewrite elem_of_all_cells;
    unfold in_scope, same_block; cbn [fst snd].
  - split; [lia | by left].
  - split; [lia | right; by left].
  - split; [lia|]. right; right.
    pose proof (Nat.div_mod_eq (3 * (row / 3) + k / 3) 3).
    pose proof (Nat.mod_upper_bound (3 * (row / 3) + k / 3) 3).
    pose proof (Nat.div_mod_eq (3 * (col / 3) + k mod 3) 3).
    pose proof (Nat.mod_upper_bound (3 * (col / 3) + k mod 3) 3).
    lia.
Qed.

Lemma discard_all_defined g row col allowed ks :
  readable g → row < 9 → col < 9 → (∀ k, k ∈ ks → k < 9) →
  ∃ d, discard_all g row col allowed ks = Ok d.
Proof.
  intros Hg Hr Hc. revert allowed.
  induction ks as [|k ks IH]; intros allowed Hks; simpl; [by eexists|].
  assert (k < 9) as Hk by (apply Hks; left).
  unfold discard_step.
  destruct (get_cell_defined g row k) as [a ->].
  { apply Hg. eapply (discard_reads row col k); [done..|]. left. }
  bind_step.
  destruct (get_cell_defined g k col) as [b ->].
  { apply Hg. eapply (discard_reads row col k); [done..|]. right; left. }
  bind_step.
  destruct (get_cell_defined g (row - row mod 3 + k / 3)
              (col - col mod 3 + k mod 3)) as [c ->].
  { apply Hg. eapply (discard_reads row col k); [done..|]. right; right; left. }
  bind_step. apply IH. intros; apply Hks; by right.
Qed.

Lemma discard_all_keeps g row col allowed ks d v :
  row < 9 → col < 9 → (∀ k, k ∈ ks → k < 9) →
  (∀ c, c ∈ all_cells → in_scope row col c → cell_at g c ≠ Some v) →
  discard_all g row col allowed ks = Ok d → v ∈ allowed → v ∈ d.
Proof.
  intros Hr Hc. revert allowed.
  induction ks as [|k ks IH]; intros allowed Hks Hfree; simpl; intros H Hv.
  { by inv_ok. }
  assert (k < 9) as Hk by (apply Hks; left).
  inv_ok. unfold discard_step in E. inv_ok.
  apply get_cell_Ok in E0, E1, E2.
  eapply IH; [intros; apply Hks; by right | done | done |].
  assert (∀ c w, c ∈ [(row, k); (k, col);
            (row - row mod 3 + k / 3, col - col mod 3 + k mod 3)] →
          cell_at g c = Some w → w ≠ v) as Hne.
  { intros c w Hcin Hw ->.
    destruct (discard_reads row col k c Hr Hc Hk Hcin) as [? ?].
    by eapply Hfree. }
  repeat (apply elem_of_difference; split); [done|..];
    rewrite elem_of_singleton; intros ->.
  - eapply Hne; [|exact E0|done]. left.
  - eapply Hne; [|exact E1|done]. right; left.
  - eapply Hne; [|exact E2|done]. right; right; left.
Qed.

Lemma get_domain_defined g row col :
  readable g → (row, col) ∈ all_cells → ∃ d, get_domain g row col = Ok d.
Proof.
  intros Hg Hin. pose proof Hin as [Hr Hc]%elem_of_all_cells.
  unfold get_domain. destruct (get_cell_defined g row col) as [v Hv]; [by apply Hg|].
  rewrite Hv. bind_step. case_decide; [by eexists|].
  apply discard_all_defined; [done..|]. intros k ?%elem_of_seq; lia.
Qed.

Lemma get_domain_readable g row col d :
  get_domain g row col = Ok d → is_Some (cell_at g (row, col)).
Proof.
  unfold get_domain. intros H. inv_ok. apply get_cell_Ok in E. by eexists.
Qed.

(** The value a solution gives to a cell is in the initial domain. *)
Lemma get_domain_sound s g row col d v :
  solves s g → (row, col) ∈ all_cells → get_domain g row col = Ok d →
  cell_at s (row, col) = Some v → v ∈ d.
Proof.
  intros (H9 & Hf & Hn & Hk) Hin H Hv.
  pose proof Hin as [Hr Hc]%elem_of_all_cells.
  unfold get_domain in H. inv_ok. apply get_cell_Ok in E.
  case_decide as H0.
  { inv_ok. apply elem_of_singleton. rewrite (Hk _ _ E H0) in Hv. congruence. }
  subst a.
  destruct (Hf _ Hin) as (w & Hw & Hw9). assert (w = v) as -> by congruence.
  eapply (discard_all_keeps g row col _ (seq 0 9) d v Hr Hc); [| |exact H|].
  - intros k ?%elem_of_seq; lia.
  - intros c Hcin Hsc Hcv.
    assert (c ≠ (row, col)) as Hne by (intros ->; rewrite E in Hcv; by inv_ok; lia).
    destruct (Hn (row, col) c Hin Hcin (in_scope_peer _ _ _ Hsc Hne)).
    rewrite Hv. symmetry. apply Hk; [done | lia].
  - apply elem_of_list_to_set, candidates_spec. done.
Qed.

Lemma init_domains_in_defined g cs :
  readable g → (∀ c, c ∈ cs → c ∈ all_cells) →
  ∃ domains, init_domains_in g cs = Ok domains.
Proof.
  intros Hg. induction cs as [|[row col] cs IH]; intros Hcs; simpl;
    [by eexists|].
  destruct (get_domain_defined g row col Hg) as [d ->]; [apply Hcs; left|].
  bind_step. destruct IH as [rest ->]; [intros; apply Hcs; by right|].
  by eexists.
Qed.

Lemma init_domains_in_lookup g cs domains :
  init_domains_in g cs = Ok domains →
  ∀ c, c ∈ cs → ∃ d, domains !! c = Some d ∧ get_domain g c.1 c.2 = Ok d.
Proof.
  revert domains. induction cs as [|[row col] cs IH]; intros domains H c Hc;
    simpl in H.
  { by apply elem_of_nil in Hc. }
  inv_ok. destruct (decide (c = (row, col))) as [->|Hne].
  - exists a. by rewrite lookup_insert_eq.
  - apply elem_of_cons in Hc as [?|Hc]; [done|].
    rewrite lookup_insert_ne by done. by eapply IH.
Qed.

Lemma init_domains_readable g domains :
  init_domains g = Ok domains → readable g.
Proof.
  intros H [row col] Hc.
  destruct (init_domains_in_lookup _ _ _ H _ Hc) as (d & _ & Hd).
  by eapply get_domain_readable.
Qed.

Lemma init_domains_keys g domains :
  init_domains g = Ok domains → ∀ c, c ∈ all_cells → c ∈ dom domains.
Proof.
  intros H c Hc.
  destruct (init_domains_in_lookup _ _ _ H _ Hc) as (d & Hd & _).
  apply elem_of_dom. by eexists.
Qed.

Lemma init_domains_sol_inv s g domains :
  solves s g → init_domains g = Ok domains → sol_inv s domains.
Proof.
  intros Hs H [row col] Hc.
  destruct (init_domains_in_lookup _ _ _ H _ Hc) as (d & Hd & Hg).
  pose proof Hs as (_ & Hf & _). destruct (Hf _ Hc) as (v & Hv & _).
  exists d, v. split_and!; [done..|]. by eapply get_domain_sound.
Qed.

Lemma init_queue_in_defined g cs :
  (∀ c, c ∈ cs → is_Some (cell_at g c)) → ∃ q, init_queue_in g cs = Ok q.
Proof.
  induction cs as [|[row col] cs IH]; intros Hg; simpl; [by eexists|].
  destruct (get_cell_defined g row col) as [v ->]; [apply Hg; left|].
  bind_step. destruct IH as [rest ->]; [intros; apply Hg; by right|].
  by eexists.
Qed.

Lemma init_queue_in_subset g cs q :
  init_queue_in g cs = Ok q → ∀ c, c ∈ q → c ∈ cs.
Proof.
  revert q. induction cs as [|[row col] cs IH]; intros q H c Hc; simpl in H.
  { inv_ok. by apply elem_of_nil in Hc. }
  inv_ok. case_decide.
  - apply elem_of_cons in Hc as [->|Hc]; [left | right; by eapply IH].
  - right. by eapply IH.
Qed.

(** ** Applying the singleton domains *)

Lemma set_pop_singleton v : set_pop {[v]} = Ok v.
Proof. unfold set_pop. by rewrite elements_singleton. Qed.

Lemma apply_singletons_spec (domains : gmap cell (gset Z)) keys g :
  (∀ c, c ∈ keys → c ∈ dom domains ∧ is_Some (cell_at g c)) →
  ∃ g1, apply_singletons domains keys g = Ok g1 ∧
    ∀ c, cell_at g1 c = cell_at g c ∨
         (c ∈ keys ∧ ∃ v, domains !! c = Some {[v]} ∧ cell_at g1 c = Some v).
Proof.
  revert g. induction keys as [|[row col] keys IH]; intros g Hk; simpl.
  { exists g. split; [done | by left]. }
  destruct (Hk (row, col)) as [[d Hd]%elem_of_dom Hc]; [left|].
  unfold dom_of. rewrite Hd. bind_step. case_decide as Hsz.
  - apply gset_size_1 in Hsz as [v ->]. rewrite set_pop_singleton. bind_step.
    destruct (set_cell_defined g row col v Hc) as [g' Hset].
    rewrite Hset. bind_step.
    destruct (IH g') as (g1 & -> & Hg1).
    { intros c Hcin. destruct (Hk c) as [? ?]; [by right|]. split; [done|].
      rewrite (cell_at_set _ _ _ _ _ _ Hset). case_decide; [by eexists | done]. }
    exists g1. split; [done|]. intros c.
    destruct (Hg1 c) as [Heq | (Hcin & w & Hw & Hcw)].
    + rewrite Heq, (cell_at_set _ _ _ _ _ _ Hset). case_decide; [|by left].
      subst. right. split; [left | by exists v].
    + right. split; [by right | by exists w].
  - destruct (IH g) as (g1 & -> & Hg1).
    { intros c Hcin. apply Hk. by right. }
    exists g1. split; [done|]. intros c.
    destruct (Hg1 c) as [Heq | (Hcin & w & Hw & Hcw)]; [by left|].
    right. split; [by right | by exists w].
Qed.

Lemma apply_singletons_preserves (P : grid → Prop) domains keys g g1 :
  (∀ g i j v g', set_cell g i j v = Ok g' → P g → P g') →
  apply_singletons domains keys g = Ok g1 → P g → P g1.
Proof.
  intros Hset. revert g.
  induction keys as [|[row col] keys IH]; intros g H Hg; simpl in H.
  { by inv_ok. }
  inv_ok. case_decide; [|by eapply IH]. inv_ok. eapply IH; [done|]. eauto.
Qed.

(** ** Fullness and extensionality *)

Lemma check_win_true g c v :
  check_win g = true → cell_at g c = Some v → v ≠ 0%Z.
Proof.
  unfold check_win, cell_at. rewrite forallb_forall.
  intros Hall Hc ->. destruct (g !! c.1) as [r|] eqn:Hr; simpl in Hc; [|done].
  specialize (Hall r). rewrite negb_true_iff in Hall.
  assert (existsb (Z.eqb 0) r = true) as Hex; [|rewrite Hall in Hex; [done|]].
  - apply existsb_exists. exists 0%Z. split; [|done].
    apply list_elem_of_In. by eapply list_elem_of_lookup_2.
  - apply list_elem_of_In. by eapply list_elem_of_lookup_2.
Qed.

Lemma grid9_ext a b :
  grid9 a → grid9 b → (∀ c, c ∈ all_cells → cell_at a c = cell_at b c) → a = b.
Proof.
  intros [Hla Hfa] [Hlb Hfb] Heq. apply list_eq. intros i.
  destruct (decide (i < 9)) as [Hi|Hi].
  2:{ rewrite !lookup_ge_None_2 by lia. done. }
  destruct (lookup_lt_is_Some_2 a i) as [ra Hra]; [lia|].
  destruct (lookup_lt_is_Some_2 b i) as [rb Hrb]; [lia|].
  rewrite Hra, Hrb. f_equal. apply list_eq. intros j.
  pose proof (Forall_lookup_1 _ _ _ _ Hfa Hra) as Ha. simpl in Ha.
  pose proof (Forall_lookup_1 _ _ _ _ Hfb Hrb) as Hb. simpl in Hb.
  destruct (decide (j < 9)) as [Hj|Hj].
  2:{ rewrite !lookup_ge_None_2 by lia. done. }
  specialize (Heq (i, j)). unfold cell_at in Heq; simpl in Heq.
  rewrite Hra, Hrb in Heq. apply Heq, elem_of_all_cells. done.
Qed.

(** ** Checkers for concrete grids *)

Lemma check_solution_ok s :
  check_solution s = true → grid9 s ∧ filled s ∧ no_repeat s.
Proof.
  unfold check_solution. rewrite !andb_true_iff, !forallb_forall.
  intros [[H9%bool_decide_eq_true Hf] Hn]. split_and!; [done| |].
  - intros c Hc%list_elem_of_In. specialize (Hf c Hc).
    destruct (cell_at s c) as [v|]; [|done].
    exists v. split; [done|]. by apply bool_decide_eq_true in Hf.
  - intros c1 c2 H1%list_elem_of_In H2%list_elem_of_In Hp.
    specialize (Hn c1 H1). rewrite forallb_forall in Hn.
    specialize (Hn c2 H2). apply bool_decide_eq_true in Hn. by apply Hn.
Qed.

Lemma check_givens_ok g s :
  check_givens g s = true → grid9 g ∧ keeps_givens g s.
Proof.
  unfold check_givens. rewrite andb_true_iff, forallb_forall.
  intros [H9%bool_decide_eq_true Hk]. split; [done|].
  intros [i j] v Hc Hv.
  assert ((i, j) ∈ all_cells) as Hin.
  { apply elem_of_all_cells. destruct H9 as [Hl Hf].
    unfold cell_at in Hc; simpl in Hc.
    destruct (g !! i) as [r|] eqn:Hr; simpl in Hc; [|done].
    pose proof (Forall_lookup_1 _ _ _ _ Hf Hr) as Hlen. simpl in Hlen.
    apply lookup_lt_Some in Hr, Hc. lia. }
  apply list_elem_of_In in Hin. specialize (Hk _ Hin).
  apply bool_decide_eq_true in Hk as [Hk | Hk]; congruence.
Qed.

Lemma check_solves s g :
  check_solution s = true → check_givens g s = true → grid9 g ∧ solves s g.
Proof.
  intros (? & ? & ?)%check_solution_ok [? ?]%check_givens_ok.
  by split_and!.
Qed.

Lemma Board_digits g : Board g → digits g.
Proof.
  intros [_ Hd] [i j] v _ Hc. unfold cell_at in Hc; simpl in Hc.
  destruct (g !! i) as [r|] eqn:Hr; simpl in Hc; [|done].
  pose proof (Forall_lookup_1 _ _ _ _ Hd Hr) as Hrow.
  by apply (Forall_lookup_1 _ _ _ _ Hrow Hc).
Qed.

Lemma solved1_checked : check_solution solved1 = true.
Proof. vm_compute. reflexivity. Qed.

(** The one-blank puzzle has [solved1] as its only solution. *)
Lemma one_blank_unique s : solves s one_blank → s = solved1.
Proof.
  intros (H9 & Hf & Hn & Hk).
  destruct (check_solution_ok _ solved1_checked) as (H91 & _ & _).
  apply grid9_ext; [done..|]. intros c Hc.
  destruct (decide (c = (0, 2))) as [->|Hne].
  - destruct (Hf (0, 2)) as (w & Hw & Hw9); [by apply elem_of_all_cells; lia|].
    assert (∀ j v, j < 9 → j ≠ 2 → cell_at one_blank (0, j) = Some v →
                   v ≠ 0%Z → w ≠ v) as Hrow.
    { intros j v Hj Hj2 Hv Hv0 ->.
      apply (Hn (0, 2) (0, j)).
      - apply elem_of_all_cells; lia.
      - apply elem_of_all_cells; lia.
      - split; [congruence | by left].
      - rewrite Hw. symmetry. by apply Hk. }
    pose proof (Hrow 0 5%Z ltac:(lia) ltac:(lia) eq_refl ltac:(lia)).
    pose proof (Hrow 1 3%Z ltac:(lia) ltac:(lia) eq_refl ltac:(lia)).
    pose proof (Hrow 3 6%Z ltac:(lia) ltac:(lia) eq_refl ltac:(lia)).
    pose proof (Hrow 4 7%Z ltac:(lia) ltac:(lia) eq_refl ltac:(lia)).
    pose proof (Hrow 5 8%Z ltac:(lia) ltac:(lia) eq_refl ltac:(lia)).
    pose proof (Hrow 6 9%Z ltac:(lia) ltac:(lia) eq_refl ltac:(lia)).
    pose proof (Hrow 7 1%Z ltac:(lia) ltac:(lia) eq_refl ltac:(lia)).
    pose proof (Hrow 8 2%Z ltac:(lia) ltac:(lia) eq_refl ltac:(lia)).
    rewrite Hw. change (cell_at solved1 (0, 2)) with (Some 4%Z).
    f_equal. lia.
  - assert (Forall (fun c => c ≠ (0, 2) →
              cell_at one_blank c = cell_at solved1 c ∧
              cell_at one_blank c ≠ Some 0%Z ∧ is_Some (cell_at one_blank c))
            all_cells) as Hall.
    { apply (bool_decide_unpack _). vm_compute. exact I. }
    destruct (proj1 (Forall_forall _ _) Hall c Hc Hne) as (Heq & H0 & [v Hv]).
    rewrite <-Heq, Hv. apply Hk; [done|]. congruence.
Qed.

(** ** The structure of [ac3_solve] once the queue has drained *)

Lemma ac3_solve_drained set_order g domains queue domains' g1 :
  init_domains g = Ok domains → init_queue g = Ok queue →
  revision_loop set_order (length queue + total_size domains) domains queue
    = Ok (Some domains') →
  apply_singletons domains' all_cells g = Ok g1 →
  ac3_solve set_order g =
    if check_win g1 then Ok (true, g1)
    else backtracking_solve g1 ≫= λ '(_, g2), Ok (true, g2).
Proof.
  intros Hd Hq Hl Ha. unfold ac3_solve.
  rewrite Hd. bind_step. rewrite Hq. bind_step. rewrite Hl. bind_step.
  rewrite Ha. by bind_step.
Qed.

Lemma set_order_perm_sound (set_order : gset cell → list cell) :
  (∀ X, set_order X ≡ₚ elements X) → ∀ X c, c ∈ set_order X → c ∈ X.
Proof. intros Hp X c. rewrite (Hp X). apply elem_of_elements. Qed.

Lemma init_defined g :
  readable g → ∃ domains queue,
    init_domains g = Ok domains ∧ init_queue g = Ok queue.
Proof.
  intros Hg. destruct (init_domains_in_defined g all_cells Hg) as [d Hd]; [done|].
  destruct (init_queue_in_defined g all_cells Hg) as [q Hq]. by exists d, q.
Qed.

(** With the keys and the grid that [init_domains] leaves, the application
    loop neither raises nor loses a readable cell. *)
Lemma apply_after_loop set_order g domains queue fuel domains' :
  init_domains g = Ok domains →
  revision_loop set_order fuel domains queue = Ok (Some domains') →
  ∃ g1, apply_singletons domains' all_cells g = Ok g1 ∧ readable g1 ∧
    ∀ c, cell_at g1 c = cell_at g c ∨
         (c ∈ all_cells ∧ ∃ v, domains' !! c = Some {[v]} ∧ cell_at g1 c = Some v).
Proof.
  intros Hd Hl. pose proof (init_domains_readable _ _ Hd) as Hg.
  destruct (apply_singletons_spec domains' all_cells g) as (g1 & Hg1 & Hc).
  { intros c Hc. split; [|by apply Hg].
    rewrite (revision_loop_dom _ _ _ _ _ Hl). by eapply init_domains_keys. }
  exists g1. split_and!; [done| |done].
  eapply (apply_singletons_preserves readable); [|done..].
  intros. by eapply set_cell_readable.
Qed.

(** On a readable grid the loop of [ac3_solve] drains. *)
Lemma loop_drains set_order g :
  (∀ X c, c ∈ set_order X → c ∈ X) → readable g →
  ∃ domains queue domains',
    init_domains g = Ok domains ∧ init_queue g = Ok queue ∧
    revision_loop set_order (length queue + total_size domains) domains queue
      = Ok (Some domains').
Proof.
  intros Hp Hg. destruct (init_defined g Hg) as (d & q & Hd & Hq).
  destruct (revision_loop_defined set_order Hp
              (length q + total_size d) d q) as [d' Hl].
  - by eapply init_domains_keys.
  - by eapply init_queue_in_subset.
  - done.
  - by exists d, q, d'.
Qed.

Lemma elements_sound (X : gset cell) c : c ∈ elements X → c ∈ X.
Proof. apply elem_of_elements. Qed.

Lemma wipeout_readable : readable wipeout.
Proof. apply grid9_readable, (bool_decide_unpack _). vm_compute. exact I. Qed.

Lemma cell_at_in_range g c v : grid9 g → cell_at g c = Some v → c ∈ all_cells.
Proof.
  intros [Hl Hf] Hc. destruct c as [i j]. apply elem_of_all_cells.
  unfold cell_at in Hc; simpl in Hc.
  destruct (g !! i) as [r|] eqn:Hr; simpl in Hc; [|done].
  pose proof (Forall_lookup_1 _ _ _ _ Hf Hr) as Hlen. simpl in Hlen.
  apply lookup_lt_Some in Hr, Hc. lia.
Qed.

(** Propagation is sound for every solution [s] of the puzzle: the grid
    after the singleton domains are applied still has its givens, and [s]
    still solves it. *)
Lemma ac3_propagation_sound set_order g s domains queue fuel domains' g1 :
  (∀ X c, c ∈ set_order X → c ∈ X) → grid9 g → solves s g →
  init_domains g = Ok domains → init_queue g = Ok queue →
  revision_loop set_order fuel domains queue = Ok (Some domains') →
  apply_singletons domains' all_cells g = Ok g1 →
  grid9 g1 ∧ keeps_givens g g1 ∧ solves s g1.
Proof.
  intros Hp H9 Hs Hd Hq Hl Ha.
  pose proof Hs as (H9s & Hf & Hn & Hk).
  assert (sol_inv s domains') as Hinv.
  { eapply (revision_loop_sound set_order Hp); [done| |by eapply init_queue_in_subset|done].
    by eapply init_domains_sol_inv. }
  destruct (apply_after_loop _ _ _ _ _ _ Hd Hl) as (g1' & Ha' & _ & Hcells).
  assert (g1' = g1) as -> by congruence.
  assert (grid9 g1) as H91.
  { eapply (apply_singletons_preserves grid9); [|done..].
    intros. by eapply set_cell_grid9. }
  assert (∀ c v, c ∈ all_cells → domains' !! c = Some {[v]} →
                 cell_at s c = Some v) as Hsing.
  { intros c v Hc Hdc. destruct (Hinv c Hc) as (d & w & Hd' & Hw & Hwd).
    assert (d = {[v]}) as -> by congruence.
    apply elem_of_singleton in Hwd. congruence. }
  split_and!; [done | |split_and!; [done..|]].
  - intros c v Hc Hv. destruct (Hcells c) as [-> | (Hin & w & Hw & ->)]; [done|].
    rewrite <-(Hsing c w Hin Hw). by apply Hk.
  - intros c v Hc Hv. destruct (Hcells c) as [Heq | (Hin & w & Hw & Hcw)].
    + apply Hk; [|done]. by rewrite <-Heq.
    + rewrite Hc in Hcw. injection Hcw as ->. by apply Hsing.
Qed.

(** * The claims *)

(** C2. For every 9x9 board (entries in [0,9]) whose non-zero givens have no
    duplicate in a row, a column or a 3x3 block: if [backtracking_solve]
    returns True, the grid is afterwards filled with digits 1-9 and no row,
    column or block holds a value twice. *)
Theorem backtracking_solve_valid g g' :
  Board g → no_conflict g → backtracking_solve g = Ok (true, g') →
  filled g' ∧ no_repeat g'.
Proof.
  intros Hb Hn H. eapply backtracking_solve_fuel_sound; [|done|done].
  by apply Board_digits.
Qed.

Lemma backtracking_solve_valid_witness :
  Board easy1 ∧ backtracking_solve easy1 = Ok (true, solved1) ∧
  filled solved1 ∧ no_repeat solved1.
Proof.
  assert (Board easy1) as Hb.
  { apply (bool_decide_unpack _). vm_compute. exact I. }
  assert (backtracking_solve easy1 = Ok (true, solved1)) as Hr.
  { vm_compute. reflexivity. }
  assert (no_conflict easy1) as Hn.
  { apply (solves_no_conflict solved1), (check_solves solved1 easy1);
      vm_compute; reflexivity. }
  split; [exact Hb|]. split; [exact Hr|].
  exact (backtracking_solve_valid easy1 solved1 Hb Hn Hr).
Defined.

(** C3. For every grid, if [backtracking_solve] returns False then the grid
    after the call equals the grid before the call. *)
Theorem backtracking_solve_rollback g g' :
  backtracking_solve g = Ok (false, g') → g' = g.
Proof. apply backtracking_solve_fuel_rollback. Qed.

Lemma backtracking_solve_rollback_witness :
  backtracking_solve wipeout = Ok (false, wipeout) ∧ wipeout = wipeout.
Proof.
  assert (backtracking_solve wipeout = Ok (false, wipeout)) as Hr.
  { vm_compute. reflexivity. }
  split; [exact Hr|]. exact (backtracking_solve_rollback wipeout wipeout Hr).
Defined.

(** C10. [backtracking_solve] never overwrites a given: a cell that holds a
    non-zero value before the call holds the same value after it, whether
    the call returns True or False. *)
Theorem backtracking_solve_keeps_givens g b g' c v :
  backtracking_solve g = Ok (b, g') → cell_at g c = Some v → v ≠ 0%Z →
  cell_at g' c = Some v.
Proof. intros H. by apply (backtracking_solve_fuel_frame _ _ _ _ H). Qed.

Lemma backtracking_solve_keeps_givens_witness :
  cell_at solved1 (0, 4) = Some 7%Z.
Proof.
  apply (backtracking_solve_keeps_givens easy1 true solved1 (0, 4) 7%Z).
  - vm_compute. reflexivity.
  - reflexivity.
  - lia.
Defined.

(** C9. The assertion of the revision loop cannot fail: for a cell with
    [0 <= row <= 8] and [0 <= col <= 8], every coordinate in
    [get_neighbors row col] lies in the 9x9 grid and is a key of the domains
    map built by the dict comprehension. *)
Theorem get_neighbors_in_domains row col n :
  row ≤ 8 → col ≤ 8 → n ∈ get_neighbors row col →
  (n.1 ≤ 8 ∧ n.2 ≤ 8) ∧
  ∀ g domains, init_domains g = Ok domains → n ∈ dom domains.
Proof.
  intros Hr Hc Hn. apply elem_of_get_neighbors in Hn as [Hin _]; [|lia..].
  split.
  - destruct n as [i j]. apply elem_of_all_cells in Hin. simpl. lia.
  - intros g domains Hd. by eapply init_domains_keys.
Qed.

Lemma get_neighbors_in_domains_witness :
  (4 ≤ 8 ∧ 5 ≤ 8) ∧
  ∀ g domains, init_domains g = Ok domains → (4, 5) ∈ dom domains.
Proof.
  apply (get_neighbors_in_domains 4 4 (4, 5)); [lia | lia |].
  apply (bool_decide_unpack _). vm_compute. exact I.
Defined.

(** C8. The revision loop terminates on every 9x9 grid: with the fuel
    [len(queue)] plus the number of candidates in all domains, which each
    dequeue lowers by one ([revise_neighbors_Ok]), the queue drains. *)
Theorem revision_loop_terminates set_order g :
  (∀ X, set_order X ≡ₚ elements X) → grid9 g →
  ∃ domains queue domains',
    init_domains g = Ok domains ∧ init_queue g = Ok queue ∧
    revision_loop set_order (length queue + total_size domains) domains queue
      = Ok (Some domains').
Proof.
  intros Hp H9. apply loop_drains; [|by apply grid9_readable].
  by apply set_order_perm_sound.
Qed.

Lemma revision_loop_terminates_witness :
  ∃ domains queue domains',
    init_domains easy1 = Ok domains ∧ init_queue easy1 = Ok queue ∧
    revision_loop elements (length queue + total_size domains) domains queue
      = Ok (Some domains').
Proof.
  apply (revision_loop_terminates elements easy1).
  - intros X. reflexivity.
  - apply (bool_decide_unpack _). vm_compute. exact I.
Defined.

(** C4. Whenever the revision queue drains without the early return,
    [ac3_solve] returns True: the grid after the singleton domains are
    applied is returned when it is full, and otherwise the backtracking
    fallback runs and its own result [b] is discarded. *)
Theorem ac3_solve_true_after_drain set_order g domains queue domains' :
  init_domains g = Ok domains → init_queue g = Ok queue →
  revision_loop set_order (length queue + total_size domains) domains queue
    = Ok (Some domains') →
  ∃ g1, apply_singletons domains' all_cells g = Ok g1 ∧
    if check_win g1 then ac3_solve set_order g = Ok (true, g1)
    else ∃ b g2, backtracking_solve g1 = Ok (b, g2) ∧
                 ac3_solve set_order g = Ok (true, g2).
Proof.
  intros Hd Hq Hl.
  destruct (apply_after_loop _ _ _ _ _ _ Hd Hl) as (g1 & Ha & Hg1 & _).
  exists g1. split; [done|].
  rewrite (ac3_solve_drained _ _ _ _ _ _ Hd Hq Hl Ha).
  destruct (check_win g1); [done|].
  destruct (backtracking_solve_defined g1 Hg1) as (b & g2 & Hb).
  exists b, g2. split; [done|]. by rewrite Hb.
Qed.

Lemma ac3_solve_true_after_drain_witness :
  ∃ domains' g1,
    apply_singletons domains' all_cells wipeout = Ok g1 ∧
    if check_win g1 then ac3_solve elements wipeout = Ok (true, g1)
    else ∃ b g2, backtracking_solve g1 = Ok (b, g2) ∧
                 ac3_solve elements wipeout = Ok (true, g2).
Proof.
  destruct (loop_drains elements wipeout elements_sound wipeout_readable)
    as (d & q & d' & Hd & Hq & Hl).
  exists d'.
  exact (ac3_solve_true_after_drain elements wipeout d q d' Hd Hq Hl).
Defined.

(** C5. On a puzzle with exactly one solution, [backtracking_solve] and
    [ac3_solve] (run on an identical copy) both return True and both leave
    that solution in the grid. *)
Theorem solvers_agree_on_unique set_order g s :
  (∀ X, set_order X ≡ₚ elements X) → grid9 g →
  solves s g → (∀ s', solves s' g → s' = s) →
  backtracking_solve g = Ok (true, s) ∧ ac3_solve set_order g = Ok (true, s).
Proof.
  intros Hp H9 Hs Huniq. split; [by apply backtracking_solve_unique|].
  pose proof (set_order_perm_sound _ Hp) as Hsound.
  destruct (loop_drains set_order g Hsound (grid9_readable _ H9))
    as (d & q & d' & Hd & Hq & Hl).
  destruct (apply_after_loop _ _ _ _ _ _ Hd Hl) as (g1 & Ha & Hr1 & _).
  destruct (ac3_propagation_sound _ _ _ _ _ _ _ _ Hsound H9 Hs Hd Hq Hl Ha)
    as (H91 & Hgg1 & Hs1).
  rewrite (ac3_solve_drained _ _ _ _ _ _ Hd Hq Hl Ha).
  destruct (check_win g1) eqn:Hw.
  - do 2 f_equal. pose proof Hs1 as (H9s & _ & _ & Hk1).
    apply grid9_ext; [done..|]. intros c Hc.
    destruct (Hr1 c Hc) as [v Hv]. rewrite Hv. symmetry.
    apply Hk1; [done|]. by eapply check_win_true.
  - rewrite (backtracking_solve_unique s g1 H91 Hs1); [done|].
    intros s' (H9' & Hf' & Hn' & Hk'). apply Huniq.
    split_and!; [done..|]. by eapply keeps_givens_trans.
Qed.

Lemma solvers_agree_on_unique_witness :
  backtracking_solve one_blank = Ok (true, solved1) ∧
  ac3_solve elements one_blank = Ok (true, solved1).
Proof.
  apply (solvers_agree_on_unique elements one_blank solved1).
  - intros X. reflexivity.
  - apply (check_givens_ok one_blank solved1). vm_compute. reflexivity.
  - apply (check_solves solved1 one_blank); vm_compute; reflexivity.
  - exact one_blank_unique.
Defined.

(** C1 (the code departs from the claim).  On [wipeout] the first dequeue,
    of (0,0) with domain {5}, empties the domain of its neighbour (0,1).
    The loop tests the domain of the dequeued cell instead, appends (0,1)
    and goes on; [ac3_solve] applies the singletons, runs the backtracking
    fallback, which fails, and returns True with (0,1) still empty. *)
Theorem ac3_solve_ignores_wipeout :
  init_queue wipeout = Ok [(0, 0); (0, 1)]
  ∧ initial_domains_at wipeout (0, 0) (0, 1) = Ok (Some {[5%Z]}, Some {[5%Z]})
  ∧ first_dequeue elements wipeout (0, 1) = Ok (Some (Some ∅, [(0, 1); (0, 1)]))
  ∧ ac3_solve elements wipeout = Ok (true, wipeout_after_ac3)
  ∧ check_win wipeout_after_ac3 = false
  ∧ backtracking_solve wipeout_after_ac3 = Ok (false, wipeout_after_ac3).
Proof. split_and!; vm_compute; reflexivity. Qed.

(** C6 (the code departs from the claim).  [load_puzzle "Easy" 0] binds
    [self.puzzle] to the stored list itself, so the solve that follows
    rewrites the stored entry: it was [one_blank] at load time and is
    [solved1] afterwards.  Only the snapshot keeps the loaded grid. *)
Theorem load_puzzle_aliases_stored :
  (observe <$> load_puzzle "Easy" 0 game0)
    = Ok (Some one_blank, Some easy1, Some one_blank, Some one_blank)
  ∧ (s1 ← load_puzzle "Easy" 0 game0;
     '(b, s2) ← game_backtracking_solve s1;
     Ok (b, observe s2))
    = Ok (true, (Some solved1, Some easy1, Some solved1, Some one_blank)).
Proof. split; vm_compute; reflexivity. Qed.

(** C7 (the code departs from the claim).  The guard of [load_puzzle] lets
    every negative index through: index -1 loads the last stored puzzle, and
    an index below [-len] raises IndexError. *)
Theorem load_puzzle_negative_index :
  (observe <$> load_puzzle "Easy" (-1) game0)
    = Ok (Some one_blank, Some easy1, Some easy1, Some easy1)
  ∧ observe game0
    = (Some one_blank, Some easy1, Some empty_grid, Some empty_grid)
  ∧ load_puzzle "Easy" (-3) game0 = Raise IndexError.
Proof. split_and!; vm_compute; reflexivity. Qed.

(** * Further properties of the board queries and of backtracking *)

Lemma all_cells_lookup n : n < 81 → all_cells !! n = Some (n / 9, n mod 9).
Proof.
  intros Hn.
  assert (Forall (fun n => all_cells !! n = Some (n / 9, n mod 9)) (seq 0 81))
    as Hall.
  { apply (bool_decide_unpack _). vm_compute. exact I. }
  apply (proj1 (Forall_forall _ _) Hall). apply elem_of_seq. lia.
Qed.

Lemma find_empty_in_first g cs c :
  find_empty_in g cs = Ok (Some c) →
  ∃ k, cs !! k = Some c ∧ cell_at g c = Some 0%Z ∧
       ∀ k' c', k' < k → cs !! k' = Some c' →
                ∃ v, cell_at g c' = Some v ∧ v ≠ 0%Z.
Proof.
  induction cs as [|[i j] cs IH]; simpl; intros H; [done|].
  inv_ok. apply get_cell_Ok in E. case_decide as Hv.
  - inv_ok. exists 0. split_and!; [done | done | intros; lia].
  - destruct (IH H) as (k & Hk & H0 & Hbefore).
    exists (S k). split_and!; [done..|].
    intros [|k'] c' Hlt Hc'; simpl in Hc'.
    + injection Hc' as <-. by exists a.
    + eapply Hbefore; [|done]. lia.
Qed.

(** X1. [find_empty_cell] returns the first empty cell in row-major order: the
    cell it returns holds 0 and every scanned cell before it does not. *)
Theorem find_empty_cell_first g i j :
  find_empty_cell g = Ok (Some (i, j)) →
  cell_at g (i, j) = Some 0%Z ∧ i < 9 ∧ j < 9 ∧
  ∀ i' j', j' < 9 → i' < i ∨ (i' = i ∧ j' < j) →
    ∃ v, cell_at g (i', j') = Some v ∧ v ≠ 0%Z.
Proof.
  intros H. destruct (find_empty_in_first _ _ _ H) as (k & Hk & H0 & Hbefore).
  pose proof (lookup_lt_Some _ _ _ Hk) as Hlen.
  change (length all_cells) with 81 in Hlen.
  rewrite (all_cells_lookup k Hlen) in Hk.
  assert (i = k / 9) as Hi by congruence.
  assert (j = k mod 9) as Hj by congruence. clear Hk.
  pose proof (Nat.div_mod_eq k 9). pose proof (Nat.mod_upper_bound k 9).
  split_and!; [done | lia | lia |].
  intros i' j' Hj' Hlt. apply (Hbefore (9 * i' + j')); [lia|].
  rewrite all_cells_lookup by lia. f_equal.
  pose proof (Nat.div_mod_eq (9 * i' + j') 9).
  pose proof (Nat.mod_upper_bound (9 * i' + j') 9).
  f_equal; lia.
Qed.

Lemma find_empty_cell_first_witness :
  cell_at easy1 (0, 2) = Some 0%Z ∧ 0 < 9 ∧ 2 < 9 ∧
  ∀ i' j', j' < 9 → i' < 0 ∨ (i' = 0 ∧ j' < 2) →
    ∃ v, cell_at easy1 (i', j') = Some v ∧ v ≠ 0%Z.
Proof. apply (find_empty_cell_first easy1 0 2). vm_compute. reflexivity. Defined.

Lemma check_win_spec g :
  check_win g = true ↔ ∀ c v, cell_at g c = Some v → v ≠ 0%Z.
Proof.
  split; [intros H c v; by apply check_win_true|].
  intros H. unfold check_win. apply forallb_forall. intros r Hr%list_elem_of_In.
  apply negb_true_iff, not_true_is_false. intros (x & Hx%list_elem_of_In & Hx0)%existsb_exists.
  apply Z.eqb_eq in Hx0 as <-.
  apply list_elem_of_lookup_1 in Hr as [i Hi].
  apply list_elem_of_lookup_1 in Hx as [j Hj].
  apply (H (i, j) 0%Z); [|done]. unfold cell_at; simpl. by rewrite Hi.
Qed.

Lemma find_empty_cell_None_iff_check_win_aux g :
  grid9 g → find_empty_cell g = Ok None ↔ check_win g = true.
Proof.
  intros H9. rewrite check_win_spec. split.
  - intros H c v Hc ->.
    destruct (find_empty_in_None _ _ H c) as (w & Hw & Hw0).
    { by eapply cell_at_in_range. }
    congruence.
  - intros H.
    destruct (find_empty_in_defined g all_cells (grid9_readable _ H9))
      as [[c|] Hf]; [|done].
    apply find_empty_in_Some in Hf as [_ Hc]. by destruct (H c 0%Z Hc).
Qed.

(** X2. On a 9x9 grid [find_empty_cell] returns None exactly when [check_win]
    holds. *)
Theorem find_empty_cell_None_iff_check_win g :
  grid9 g → find_empty_cell g = Ok None ↔ check_win g = true.
Proof. apply find_empty_cell_None_iff_check_win_aux. Qed.

Lemma find_empty_cell_None_iff_check_win_witness :
  find_empty_cell solved1 = Ok None ↔ check_win solved1 = true.
Proof.
  apply (find_empty_cell_None_iff_check_win solved1).
  apply (bool_decide_unpack _). vm_compute. exact I.
Defined.

Lemma is_valid_spec_aux g num row col :
  grid9 g → row < 9 → col < 9 →
  ∃ b, is_valid g num row col = Ok b ∧
       (b = true ↔ ∀ c, c ∈ all_cells → in_scope row col c →
                        cell_at g c ≠ Some num).
Proof.
  intros H9 Hr Hc.
  assert ((row, col) ∈ all_cells) as Hin by (by apply elem_of_all_cells).
  destruct (is_valid_defined g num row col (grid9_readable _ H9) Hin) as [b Hb].
  exists b. split; [done|]. destruct b.
  - split; [intros _; by eapply is_valid_true | done].
  - split; [done|]. intros Hfree.
    apply is_valid_false in Hb as (c & Hc1 & Hc2 & Hc3); [|done..].
    by destruct (Hfree c Hc1 Hc2).
Qed.

(** X3. On a 9x9 grid [is_valid num row col] returns without raising, and it
    returns True exactly when no cell of the row, the column or the block
    of the cell holds [num]. *)
Theorem is_valid_spec g num row col :
  grid9 g → row < 9 → col < 9 →
  ∃ b, is_valid g num row col = Ok b ∧
       (b = true ↔ ∀ c, c ∈ all_cells → in_scope row col c →
                        cell_at g c ≠ Some num).
Proof. apply is_valid_spec_aux. Qed.

Lemma is_valid_spec_witness :
  ∃ b, is_valid easy1 4%Z 0 2 = Ok b ∧
       (b = true ↔ ∀ c, c ∈ all_cells → in_scope 0 2 c →
                        cell_at easy1 c ≠ Some 4%Z).
Proof.
  apply (is_valid_spec easy1 4%Z 0 2); [|lia|lia].
  apply (bool_decide_unpack _). vm_compute. exact I.
Defined.

(** X4. A grid without an empty cell is returned as it is: on a full 9x9 grid
    [backtracking_solve] succeeds at once and writes nothing, whether or not
    the grid is a valid solution. *)
Theorem backtracking_solve_full g :
  grid9 g → check_win g = true → backtracking_solve g = Ok (true, g).
Proof.
  intros H9 Hw. apply (find_empty_cell_None_iff_check_win_aux g H9) in Hw.
  unfold backtracking_solve. rewrite backtracking_solve_fuel_S, Hw. done.
Qed.

Lemma backtracking_solve_full_witness :
  backtracking_solve solved1 = Ok (true, solved1).
Proof.
  apply (backtracking_solve_full solved1).
  - apply (bool_decide_unpack _). vm_compute. exact I.
  - vm_compute. reflexivity.
Defined.

(** X5. Completeness: on a 9x9 puzzle that has a solution, [backtracking_solve]
    returns True and the grid it leaves is a solution of that puzzle. *)
Theorem backtracking_solve_complete s g :
  grid9 g → solves s g →
  ∃ g', backtracking_solve g = Ok (true, g') ∧ solves g' g.
Proof. apply backtracking_solve_finds. Qed.

Lemma backtracking_solve_complete_witness :
  ∃ g', backtracking_solve easy1 = Ok (true, g') ∧ solves g' easy1.
Proof.
  apply (backtracking_solve_complete solved1 easy1);
    apply (check_solves solved1 easy1); vm_compute; reflexivity.
Defined.

(** X6. A False from [backtracking_solve] on a 9x9 grid means that the puzzle
    has no solution. *)
Theorem backtracking_solve_false_unsolvable g g' :
  grid9 g → backtracking_solve g = Ok (false, g') → ¬ ∃ s, solves s g.
Proof.
  intros H9 H [s Hs].
  destruct (backtracking_solve_finds s g H9 Hs) as (g2 & Hg2 & _). congruence.
Qed.

Lemma backtracking_solve_false_unsolvable_witness : ¬ ∃ s, solves s wipeout.
Proof.
  apply (backtracking_solve_false_unsolvable wipeout wipeout).
  - apply (bool_decide_unpack _). vm_compute. exact I.
  - vm_compute. reflexivity.
Defined.

(** X7. [backtracking_solve] returns, without raising, on every grid that has
    at least the 81 scanned cells. *)
Theorem backtracking_solve_returns g :
  readable g → ∃ b g', backtracking_solve g = Ok (b, g').
Proof. apply backtracking_solve_defined. Qed.

Lemma backtracking_solve_returns_witness :
  ∃ b g', backtracking_solve wipeout = Ok (b, g').
Proof. apply (backtracking_solve_returns wipeout), wipeout_readable. Defined.

(** * Further properties of AC-3 *)

(** X9. Every cell of the grid has exactly 20 neighbours. *)
Theorem get_neighbors_count row col :
  row < 9 → col < 9 → size (get_neighbors row col) = 20.
Proof.
  intros Hr Hc.
  assert (Forall (fun c : cell => size (get_neighbors c.1 c.2) = 20) all_cells)
    as Hall.
  { apply (bool_decide_unpack _). vm_compute. exact I. }
  apply (proj1 (Forall_forall _ _) Hall (row, col)).
  by apply elem_of_all_cells.
Qed.

Lemma get_neighbors_count_witness : size (get_neighbors 8 0) = 20.
Proof. apply (get_neighbors_count 8 0); lia. Defined.

(** X10. The neighbour relation is symmetric, and no cell is its own
    neighbour. *)
Theorem get_neighbors_sym row col i j :
  row < 9 → col < 9 → i < 9 → j < 9 →
  ((i, j) ∈ get_neighbors row col ↔ (row, col) ∈ get_neighbors i j) ∧
  (row, col) ∉ get_neighbors row col.
Proof.
  intros Hr Hc Hi Hj. split; [|apply get_neighbors_not_self].
  rewrite !elem_of_get_neighbors, !elem_of_all_cells by done.
  split; intros [_ Hp%peer_sym]; done.
Qed.

Lemma get_neighbors_sym_witness :
  ((4, 5) ∈ get_neighbors 3 3 ↔ (3, 3) ∈ get_neighbors 4 5) ∧
  (3, 3) ∉ get_neighbors 3 3.
Proof. apply (get_neighbors_sym 3 3 4 5); lia. Defined.

Lemma discard_all_spec g row col allowed ks d :
  discard_all g row col allowed ks = Ok d →
  ∀ v, v ∈ d ↔
    v ∈ allowed ∧
    ∀ k c, k ∈ ks →
      c ∈ [(row, k); (k, col);
           (row - row mod 3 + k / 3, col - col mod 3 + k mod 3)] →
      cell_at g c ≠ Some v.
Proof.
  revert allowed. induction ks as [|k ks IH]; intros allowed H v; simpl in H.
  { inv_ok. split; [intros ?; split; [done|] | by intros [? _]].
    by intros k c ?%elem_of_nil. }
  inv_ok. unfold discard_step in E. inv_ok.
  apply get_cell_Ok in E0, E1, E2.
  rewrite (IH _ H v), !elem_of_difference, !elem_of_singleton. split.
  - intros [(((Hv & Ha) & Hb) & Hc) Hks]. split; [done|].
    intros k' c [-> | Hk']%elem_of_cons Hcin; [|by eapply Hks].
    rewrite !elem_of_cons, elem_of_nil in Hcin.
    destruct Hcin as [-> | [-> | [-> | []]]]; congruence.
  - intros [Hv Hks]. split.
    + split_and!; [done|..]; intros ->.
      * apply (Hks k (row, k)); [left | left | done].
      * apply (Hks k (k, col)); [left | right; left | done].
      * eapply (Hks k); [left | right; right; left | done].
    + intros k' c Hk'. apply Hks. by right.
Qed.

(** Every scanned cell in the scope of a cell is read by [get_domain]. *)
Lemma in_scope_read row col c :
  row < 9 → col < 9 → c ∈ all_cells → in_scope row col c →
  ∃ k, k ∈ seq 0 9 ∧
       c ∈ [(row, k); (k, col);
            (row - row mod 3 + k / 3, col - col mod 3 + k mod 3)].
Proof.
  intros Hr Hc Hin Hs. destruct c as [i j].
  apply elem_of_all_cells in Hin as [Hi Hj].
  unfold in_scope, same_block in Hs. cbn [fst snd] in Hs.
  rewrite !block_origin.
  destruct Hs as [-> | [-> | [Hbi Hbj]]].
  - exists j. rewrite elem_of_seq. split; [lia | left].
  - exists i. rewrite elem_of_seq. split; [lia | right; left].
  - pose proof (Nat.div_mod_eq row 3). pose proof (Nat.div_mod_eq col 3).
    pose proof (Nat.mod_upper_bound row 3). pose proof (Nat.mod_upper_bound col 3).
    pose proof (Nat.div_mod_eq i 3). pose proof (Nat.div_mod_eq j 3).
    pose proof (Nat.mod_upper_bound i 3). pose proof (Nat.mod_upper_bound j 3).
    exists (3 * (i mod 3) + j mod 3). rewrite elem_of_seq. split; [lia|].
    rewrite !elem_of_cons. right; right; left.
    destruct (block_index (i mod 3) (j mod 3)) as [-> ->]; [lia|].
    f_equal; lia.
Qed.

(** X11. [get_domain] on a 9x9 grid: a filled cell has the singleton of its
    value; an empty cell has exactly the digits 1-9 that [is_valid] accepts
    for it. *)
Theorem get_domain_spec g row col :
  grid9 g → row < 9 → col < 9 →
  ∃ d, get_domain g row col = Ok d ∧
    ∀ v0, cell_at g (row, col) = Some v0 →
      if decide (v0 = 0%Z)
      then ∀ v, v ∈ d ↔ (1 ≤ v ≤ 9)%Z ∧ is_valid g v row col = Ok true
      else d = {[v0]}.
Proof.
  intros H9 Hr Hc.
  assert ((row, col) ∈ all_cells) as Hin by (by apply elem_of_all_cells).
  destruct (get_domain_defined g row col (grid9_readable _ H9) Hin) as [d Hd].
  exists d. split; [done|]. intros v0 Hv0.
  unfold get_domain in Hd. apply get_cell_Ok in Hv0 as Hget. rewrite Hget in Hd.
  revert Hd. bind_step. intros Hd.
  destruct (decide (v0 = 0%Z)) as [->|Hne].
  - rewrite decide_False in Hd by (intros ?; done).
    intros v. rewrite (discard_all_spec _ _ _ _ _ _ Hd v).
    rewrite elem_of_list_to_set, candidates_spec.
    destruct (is_valid_spec_aux g v row col H9 Hr Hc) as (b & -> & Hb).
    split.
    + intros [Hv Hfree]. split; [done|]. f_equal. apply Hb.
      intros c Hcin Hsc.
      destruct (in_scope_read row col c Hr Hc Hcin Hsc) as (k & Hk & Hread).
      by eapply Hfree.
    + intros [Hv [= ->]]. split; [done|].
      intros k c Hk%elem_of_seq Hread.
      destruct (discard_reads row col k c Hr Hc) as [? ?]; [lia | done |].
      by apply Hb.
  - rewrite decide_True in Hd by done. by inv_ok.
Qed.

Lemma get_domain_spec_witness :
  ∃ d, get_domain easy1 0 2 = Ok d ∧
    ∀ v0, cell_at easy1 (0, 2) = Some v0 →
      if decide (v0 = 0%Z)
      then ∀ v, v ∈ d ↔ (1 ≤ v ≤ 9)%Z ∧ is_valid easy1 v 0 2 = Ok true
      else d = {[v0]}.
Proof.
  apply (get_domain_spec easy1 0 2); [|lia|lia].
  apply (bool_decide_unpack _). vm_compute. exact I.
Defined.

Lemma shrinks_refl domains : shrinks domains domains.
Proof. intros c d' H. by exists d'. Qed.

Lemma shrinks_trans d1 d2 d3 : shrinks d1 d2 → shrinks d2 d3 → shrinks d1 d3.
Proof.
  intros H12 H23 c d' H3. destruct (H23 c d' H3) as (d2' & H2 & Hs).
  destruct (H12 c d2' H2) as (d1' & H1 & Hs'). exists d1'. split; [done|].
  set_solver.
Qed.

Lemma revise_shrinks domains xi xj revised domains' :
  revise domains xi xj = Ok (revised, domains') → shrinks domains domains'.
Proof.
  intros [[-> ->] | (-> & dj & v & Hj & Hi & Hv & ->)]%revise_Ok;
    [apply shrinks_refl|].
  intros c d'. destruct (decide (c = xj)) as [->|Hne].
  - rewrite lookup_insert_eq. intros [= <-]. exists dj. split; [done|].
    set_solver.
  - rewrite lookup_insert_ne by done. intros Hc. by exists d'.
Qed.

Lemma revise_neighbors_shrinks xi neighbors domains queue domains' queue' :
  revise_neighbors xi neighbors domains queue = Ok (Some (domains', queue')) →
  shrinks domains domains'.
Proof.
  revert domains queue.
  induction neighbors as [|n rest IH]; intros domains queue; simpl; intros H.
  { inv_ok. apply shrinks_refl. }
  case_decide; [|done]. inv_ok. destruct a as [revised d1].
  pose proof (revise_shrinks _ _ _ _ _ E) as Hs.
  destruct revised.
  - inv_ok. case_decide; [done|]. eapply shrinks_trans; [done|]. by eapply IH.
  - eapply shrinks_trans; [done|]. by eapply IH.
Qed.

Lemma revision_loop_shrinks set_order fuel domains queue domains' :
  revision_loop set_order fuel domains queue = Ok (Some domains') →
  shrinks domains domains'.
Proof.
  revert domains queue.
  induction fuel as [|fuel IH]; intros domains [|[row col] queue] H;
    simpl in *; inv_ok; try apply shrinks_refl; try done.
  destruct a as [[d1 q1]|]; inv_ok.
  eapply shrinks_trans; [by eapply revise_neighbors_shrinks | by eapply IH].
Qed.

(** X12. The revision loop never adds a candidate and never changes the keys:
    every domain it leaves is a subset of the domain [init_domains] gave to
    that cell. *)
Theorem revision_loop_only_shrinks set_order fuel domains queue domains' :
  revision_loop set_order fuel domains queue = Ok (Some domains') →
  dom domains' = dom domains ∧
  ∀ c d', domains' !! c = Some d' → ∃ d, domains !! c = Some d ∧ d' ⊆ d.
Proof.
  intros H. split; [by eapply revision_loop_dom | by eapply revision_loop_shrinks].
Qed.

Lemma revision_loop_only_shrinks_witness :
  ∃ domains domains' : gmap cell (gset Z),
    init_domains wipeout = Ok domains ∧
    dom domains' = dom domains ∧
    ∀ c d', domains' !! c = Some d' → ∃ d, domains !! c = Some d ∧ d' ⊆ d.
Proof.
  destruct (loop_drains elements wipeout elements_sound wipeout_readable)
    as (d & q & d' & Hd & Hq & Hl).
  exists d, d'. split; [exact Hd|].
  exact (revision_loop_only_shrinks elements _ d q d' Hl).
Defined.

(** X13. The early [return False] of the revision loop is dead code: whatever
    the grid, [ac3_solve] never returns False. *)
Theorem ac3_solve_never_false set_order g g' :
  (∀ X, set_order X ≡ₚ elements X) →
  ac3_solve set_order g ≠ Ok (false, g').
Proof.
  intros Hp H. unfold ac3_solve in H. inv_ok.
  destruct (revision_loop_defined set_order (set_order_perm_sound _ Hp)
              (length a0 + total_size a) a a0) as [d' Hl].
  { by eapply init_domains_keys. }
  { by eapply init_queue_in_subset. }
  { done. }
  rewrite Hl in E1. inv_ok.
  destruct (check_win a1); inv_ok.
  destruct a2 as [? ?]. by inv_ok.
Qed.

Lemma ac3_solve_never_false_witness :
  ac3_solve elements wipeout ≠ Ok (false, wipeout).
Proof.
  apply (ac3_solve_never_false elements wipeout wipeout).
  intros X. reflexivity.
Defined.

(** X14. On every 9x9 grid, solvable or not, [ac3_solve] returns True. *)
Theorem ac3_solve_returns_true set_order g :
  (∀ X, set_order X ≡ₚ elements X) → grid9 g →
  ∃ g', ac3_solve set_order g = Ok (true, g').
Proof.
  intros Hp H9.
  destruct (loop_drains set_order g (set_order_perm_sound _ Hp)
              (grid9_readable _ H9)) as (d & q & d' & Hd & Hq & Hl).
  destruct (apply_after_loop _ _ _ _ _ _ Hd Hl) as (g1 & Ha & Hr1 & _).
  rewrite (ac3_solve_drained _ _ _ _ _ _ Hd Hq Hl Ha).
  destruct (check_win g1); [by eexists|].
  destruct (backtracking_solve_defined g1 Hr1) as (b & g2 & ->). by eexists.
Qed.

Lemma ac3_solve_returns_true_witness :
  ∃ g', ac3_solve elements wipeout = Ok (true, g').
Proof.
  apply (ac3_solve_returns_true elements wipeout).
  - intros X. reflexivity.
  - apply (bool_decide_unpack _). vm_compute. exact I.
Defined.

Lemma init_domains_given g domains c v :
  init_domains g = Ok domains → c ∈ all_cells →
  cell_at g c = Some v → v ≠ 0%Z → domains !! c = Some {[v]}.
Proof.
  intros Hd Hc Hv Hv0.
  destruct (init_domains_in_lookup _ _ _ Hd c Hc) as (d & Hdc & Hg).
  rewrite Hdc. f_equal. destruct c as [row col]. simpl in Hg.
  unfold get_domain in Hg. apply get_cell_Ok in Hv. rewrite Hv in Hg.
  revert Hg. bind_step. rewrite decide_True by done. by intros [= <-].
Qed.

(** X15. [ac3_solve] never overwrites a given: a cell that holds a non-zero
    value before the call holds the same value after it. *)
Theorem ac3_solve_keeps_givens set_order g b g' c v :
  ac3_solve set_order g = Ok (b, g') → cell_at g c = Some v → v ≠ 0%Z →
  cell_at g' c = Some v.
Proof.
  intros H Hc Hv. unfold ac3_solve in H. inv_ok.
  destruct a1 as [d'|]; inv_ok; [|done].
  destruct (apply_after_loop _ _ _ _ _ _ E E1) as (g1 & Ha & _ & Hcells).
  assert (a1 = g1) as -> by congruence.
  assert (cell_at g1 c = Some v) as Hc1.
  { destruct (Hcells c) as [-> | (Hin & w & Hw & ->)]; [done|].
    destruct (revision_loop_shrinks _ _ _ _ _ E1 c _ Hw) as (d & Hd & Hsub).
    rewrite (init_domains_given _ _ _ _ E Hin Hc Hv) in Hd.
    injection Hd as <-. f_equal.
    assert (w ∈ ({[v]} : gset Z)) as Hwv
      by (apply Hsub; by apply elem_of_singleton).
    by apply elem_of_singleton in Hwv. }
  destruct (check_win g1); inv_ok; [done|].
  destruct a1 as [b' g2]. inv_ok.
  by eapply (backtracking_solve_fuel_frame _ _ _ _ E3).
Qed.

Lemma ac3_solve_keeps_givens_witness :
  cell_at wipeout_after_ac3 (3, 8) = Some 3%Z.
Proof.
  apply (ac3_solve_keeps_givens elements wipeout true wipeout_after_ac3 (3, 8) 3%Z).
  - vm_compute. reflexivity.
  - reflexivity.
  - lia.
Defined.

(** X16. On a 9x9 puzzle that has a solution, [ac3_solve] returns True and
    leaves a solution of that puzzle in the grid. *)
Theorem ac3_solve_complete set_order s g :
  (∀ X, set_order X ≡ₚ elements X) → grid9 g → solves s g →
  ∃ g', ac3_solve set_order g = Ok (true, g') ∧ solves g' g.
Proof.
  intros Hp H9 Hs. pose proof (set_order_perm_sound _ Hp) as Hsound.
  destruct (loop_drains set_order g Hsound (grid9_readable _ H9))
    as (d & q & d' & Hd & Hq & Hl).
  destruct (apply_after_loop _ _ _ _ _ _ Hd Hl) as (g1 & Ha & Hr1 & _).
  destruct (ac3_propagation_sound _ _ _ _ _ _ _ _ Hsound H9 Hs Hd Hq Hl Ha)
    as (H91 & Hgg1 & Hs1).
  rewrite (ac3_solve_drained _ _ _ _ _ _ Hd Hq Hl Ha).
  destruct (check_win g1) eqn:Hw.
  - exists g1. split; [done|]. pose proof Hs1 as (H9s & _ & _ & Hk1).
    assert (g1 = s) as ->; [|done].
    apply grid9_ext; [done..|]. intros c Hc.
    destruct (Hr1 c Hc) as [v Hv]. rewrite Hv. symmetry.
    apply Hk1; [done|]. by eapply check_win_true.
  - destruct (backtracking_solve_finds s g1 H91 Hs1) as (g2 & -> & Hs2).
    exists g2. split; [done|]. destruct Hs2 as (? & ? & ? & ?).
    split_and!; [done..|]. by eapply keeps_givens_trans.
Qed.

Lemma ac3_solve_complete_witness :
  ∃ g', ac3_solve elements easy1 = Ok (true, g') ∧ solves g' easy1.
Proof.
  apply (ac3_solve_complete elements solved1 easy1).
  - intros X. reflexivity.
  - apply (check_givens_ok easy1 solved1). vm_compute. reflexivity.
  - apply (check_solves solved1 easy1); vm_compute; reflexivity.
Defined.

(** X17. Propagation is sound: on a 9x9 puzzle solved by [s], every cell of the
    grid left by the singleton application holds its given or the value [s]
    gives it, so [s] still solves that grid. *)
Theorem ac3_propagation_keeps_solution set_order g s domains queue domains' g1 :
  (∀ X, set_order X ≡ₚ elements X) → grid9 g → solves s g →
  init_domains g = Ok domains → init_queue g = Ok queue →
  revision_loop set_order (length queue + total_size domains) domains queue
    = Ok (Some domains') →
  apply_singletons domains' all_cells g = Ok g1 →
  keeps_givens g g1 ∧ solves s g1.
Proof.
  intros Hp H9 Hs Hd Hq Hl Ha.
  by destruct (ac3_propagation_sound _ _ _ _ _ _ _ _
                 (set_order_perm_sound _ Hp) H9 Hs Hd Hq Hl Ha) as (_ & ? & ?).
Qed.

Lemma ac3_propagation_keeps_solution_witness :
  ∃ g1, keeps_givens easy1 g1 ∧ solves solved1 g1.
Proof.
  assert (grid9 easy1 ∧ solves solved1 easy1) as [H9 Hs].
  { apply (check_solves solved1 easy1); vm_compute; reflexivity. }
  destruct (loop_drains elements easy1 elements_sound (grid9_readable _ H9))
    as (d & q & d' & Hd & Hq & Hl).
  destruct (apply_after_loop _ _ _ _ _ _ Hd Hl) as (g1 & Ha & _ & _).
  exists g1.
  apply (ac3_propagation_keeps_solution elements easy1 solved1 d q d' g1);
    [intros X; reflexivity | exact H9 | exact Hs | exact Hd | exact Hq
    | exact Hl | exact Ha].
Defined.

(** * Properties of puzzle loading and reset *)

Lemma load_puzzle_out_of_range_aux difficulty idx s :
  (∀ stored, puzzles s !! difficulty = Some stored →
             (Z.of_nat (length stored) ≤ idx)%Z) →
  load_puzzle difficulty idx s = Ok s.
Proof.
  intros H. unfold load_puzzle.
  destruct (puzzles s !! difficulty) as [stored|]; [|done].
  specialize (H stored eq_refl). by rewrite decide_False by lia.
Qed.

(** X19. With an unknown difficulty, or an index at or above the number of
    stored puzzles, [load_puzzle] changes nothing. *)
Theorem load_puzzle_out_of_range difficulty idx s :
  (∀ stored, puzzles s !! difficulty = Some stored →
             (Z.of_nat (length stored) ≤ idx)%Z) →
  load_puzzle difficulty idx s = Ok s.
Proof. apply load_puzzle_out_of_range_aux. Qed.

Lemma load_puzzle_out_of_range_witness :
  load_puzzle "Easy" 2 game0 = Ok game0.
Proof.
  apply (load_puzzle_out_of_range "Easy" 2 game0).
  intros stored Hs. vm_compute in Hs. injection Hs as <-. simpl. lia.
Defined.

Lemma load_puzzle_in_range_aux difficulty idx s stored p g :
  puzzles s !! difficulty = Some stored →
  (0 ≤ idx)%Z → stored !! Z.to_nat idx = Some p → heap s !! p = Some g →
  ∃ s', load_puzzle difficulty idx s = Ok s' ∧
    puzzle s' = p ∧ puzzles s' = puzzles s ∧
    (original_puzzle s' ∉ dom (heap s)) ∧
    working_grid s' = Some g ∧ snapshot_grid s' = Some g ∧
    ∀ l, l ∈ dom (heap s) → heap s' !! l = heap s !! l.
Proof.
  intros Hd Hidx Hp Hg. unfold load_puzzle. rewrite Hd.
  pose proof (lookup_lt_Some _ _ _ Hp) as Hlt.
  rewrite decide_True by lia.
  unfold py_index. rewrite decide_True by done.
  unfold index. rewrite Hp. bind_step. eexists. split; [done|].
  pose proof (is_fresh (dom (heap s))) as Hfresh.
  assert (p ≠ fresh (dom (heap s))) as Hne.
  { intros ->. apply Hfresh, elem_of_dom. by eexists. }
  unfold working_grid, snapshot_grid; simpl.
  rewrite (lookup_total_correct _ _ _ Hg).
  split_and!; [done | done | done | | |].
  - by rewrite lookup_insert_ne.
  - by rewrite lookup_insert_eq.
  - intros l Hl. rewrite lookup_insert_ne; [done|]. by intros <-.
Qed.

(** X20. With an index in [0, len), [load_puzzle] returns without raising; the
    working grid is the stored object itself, the snapshot is a new object
    with the same content, and nothing else changes. *)
Theorem load_puzzle_in_range difficulty idx s stored p g :
  puzzles s !! difficulty = Some stored →
  (0 ≤ idx)%Z → stored !! Z.to_nat idx = Some p → heap s !! p = Some g →
  ∃ s', load_puzzle difficulty idx s = Ok s' ∧
    puzzle s' = p ∧ puzzles s' = puzzles s ∧
    (original_puzzle s' ∉ dom (heap s)) ∧
    working_grid s' = Some g ∧ snapshot_grid s' = Some g ∧
    ∀ l, l ∈ dom (heap s) → heap s' !! l = heap s !! l.
Proof. apply load_puzzle_in_range_aux. Qed.

Lemma load_puzzle_in_range_witness :
  ∃ s', load_puzzle "Easy" 1 game0 = Ok s' ∧
    puzzle s' = 3 ∧ puzzles s' = puzzles game0 ∧
    (original_puzzle s' ∉ dom (heap game0)) ∧
    working_grid s' = Some easy1 ∧ snapshot_grid s' = Some easy1 ∧
    ∀ l, l ∈ dom (heap game0) → heap s' !! l = heap game0 !! l.
Proof.
  apply (load_puzzle_in_range "Easy" 1 game0 [2; 3] 3 easy1);
    [vm_compute; reflexivity | lia | reflexivity | vm_compute; reflexivity].
Defined.

Lemma start_restores_snapshot_aux s g :
  snapshot_grid s = Some g →
  working_grid (start s) = Some g ∧ snapshot_grid (start s) = Some g ∧
  (puzzle (start s) ∉ dom (heap s)) ∧ puzzles (start s) = puzzles s ∧
  ∀ l, l ∈ dom (heap s) → heap (start s) !! l = heap s !! l.
Proof.
  unfold snapshot_grid, working_grid, start; simpl. intros Hg.
  pose proof (is_fresh (dom (heap s))) as Hfresh.
  rewrite (lookup_total_correct _ _ _ Hg).
  split_and!; [| |done|done|].
  - by rewrite lookup_insert_eq.
  - rewrite lookup_insert_ne; [done|]. intros Heq. apply Hfresh.
    rewrite Heq. apply elem_of_dom. by eexists.
  - intros l Hl. rewrite lookup_insert_ne; [done|]. by intros <-.
Qed.

(** X21. [start] binds the working grid to a new object whose content is the
    snapshot; the snapshot and every existing object are untouched. *)
Theorem start_restores_snapshot s g :
  snapshot_grid s = Some g →
  working_grid (start s) = Some g ∧ snapshot_grid (start s) = Some g ∧
  (puzzle (start s) ∉ dom (heap s)) ∧ puzzles (start s) = puzzles s ∧
  ∀ l, l ∈ dom (heap s) → heap (start s) !! l = heap s !! l.
Proof. apply start_restores_snapshot_aux. Qed.

Lemma start_restores_snapshot_witness :
  working_grid (start game0) = Some empty_grid ∧
  snapshot_grid (start game0) = Some empty_grid ∧
  (puzzle (start game0) ∉ dom (heap game0)) ∧
  puzzles (start game0) = puzzles game0 ∧
  ∀ l, l ∈ dom (heap game0) → heap (start game0) !! l = heap game0 !! l.
Proof.
  apply (start_restores_snapshot game0 empty_grid). vm_compute. reflexivity.
Defined.

(** X22. Load, solve, reset: after [load_puzzle] with an index in [0, len), a
    run of either solver and [start], the working grid and the snapshot are
    again the grid that was loaded, while the stored entry holds what the
    solver left. *)
Theorem reset_after_solve solver difficulty idx s stored p g s1 b s2 :
  puzzles s !! difficulty = Some stored →
  (0 ≤ idx)%Z → stored !! Z.to_nat idx = Some p → heap s !! p = Some g →
  load_puzzle difficulty idx s = Ok s1 → on_puzzle solver s1 = Ok (b, s2) →
  working_grid (start s2) = Some g ∧ snapshot_grid (start s2) = Some g ∧
  ∃ g', solver g = Ok (b, g') ∧
        stored_grid (start s2) difficulty (Z.to_nat idx) = Some g'.
Proof.
  intros Hd Hidx Hp Hg Hload Hsolve.
  destruct (load_puzzle_in_range_aux _ _ _ _ _ _ Hd Hidx Hp Hg)
    as (s1' & Hload' & Hpz & Hps & Hfresh & Hw & Hsn & Hframe).
  assert (s1' = s1) as -> by congruence.
  unfold on_puzzle in Hsolve. unfold working_grid in Hw.
  rewrite (lookup_total_correct _ _ _ Hw) in Hsolve.
  destruct (solver g) as [[b' g']| |] eqn:Hsol; simpl in Hsolve; [|done..].
  injection Hsolve as <- <-.
  assert (original_puzzle s1 ≠ puzzle s1) as Hne.
  { rewrite Hpz. intros Heq. apply Hfresh. rewrite Heq.
    apply elem_of_dom. by eexists. }
  set (s2 := {| heap := <[puzzle s1 := g']> (heap s1); puzzles := puzzles s1;
                puzzle := puzzle s1; original_puzzle := original_puzzle s1 |}).
  assert (snapshot_grid s2 = Some g) as Hsn2.
  { unfold snapshot_grid, s2; simpl. unfold snapshot_grid in Hsn.
    by rewrite lookup_insert_ne. }
  destruct (start_restores_snapshot_aux s2 g Hsn2) as (Hw3 & Hs3 & Hf3 & Hp3 & Hframe3).
  split_and!; [done | done |]. exists g'. split; [done|].
  unfold stored_grid. rewrite Hp3. unfold s2 at 1; simpl. rewrite Hps, Hd.
  simpl. rewrite Hp. simpl. rewrite Hframe3.
  - unfold s2; simpl. rewrite <-Hpz. by rewrite lookup_insert_eq.
  - unfold s2; simpl. rewrite <-Hpz. apply elem_of_dom.
    rewrite lookup_insert_eq. by eexists.
Qed.

Lemma reset_after_solve_witness :
  ∃ s2, working_grid (start s2) = Some one_blank ∧
        snapshot_grid (start s2) = Some one_blank ∧
        ∃ g', backtracking_solve one_blank = Ok (true, g') ∧
              stored_grid (start s2) "Easy" (Z.to_nat 0) = Some g'.
Proof.
  destruct (load_puzzle_in_range_aux "Easy" 0 game0 [2; 3] 2 one_blank)
    as (s1 & Hload & Hpz & _ & _ & Hw & _);
    [vm_compute; reflexivity | lia | reflexivity | vm_compute; reflexivity |].
  assert (backtracking_solve one_blank = Ok (true, solved1)) as Hb.
  { vm_compute. reflexivity. }
  eexists.
  apply (reset_after_solve backtracking_solve "Easy" 0 game0 [2; 3] 2
           one_blank s1 true);
    [vm_compute; reflexivity | lia | reflexivity | vm_compute; reflexivity
    | exact Hload |].
  unfold on_puzzle. unfold working_grid in Hw.
  rewrite (lookup_total_correct _ _ _ Hw), Hb. reflexivity.
Defined.

(** * Reading the puzzle files *)

Lemma read_lines_acc lines puzzles current :
  read_lines lines puzzles current =
  match read_lines lines [] current with
  | Read ps => Read (puzzles ++ ps)
  | ValueError => ValueError
  end.
Proof.
  revert puzzles current.
  induction lines as [|[row| |] rest IH]; intros puzzles current; simpl.
  - destruct current; [by rewrite app_nil_r | done].
  - apply IH.
  - destruct current as [|r current]; [apply IH|].
    rewrite (IH (puzzles ++ _)), (IH [_]).
    destruct (read_lines rest [] []); [|done]. by rewrite app_assoc.
  - done.
Qed.

(** X23. A file is read as its blocks of consecutive numeric lines: separator
    lines before a block are skipped, a non-empty block followed by a
    separator becomes one puzzle, and a non-empty block at the end of the
    file becomes the last puzzle. *)
Theorem read_lines_blocks (rows : grid) rest :
  rows ≠ [] →
  read_lines (Other :: rest) [] [] = read_lines rest [] [] ∧
  read_lines ((Numeric <$> rows) ++ Other :: rest) [] [] =
    match read_lines rest [] [] with
    | Read ps => Read (rows :: ps)
    | ValueError => ValueError
    end ∧
  read_lines (Numeric <$> rows) [] [] = Read [rows].
Proof.
  intros Hrows. split; [done|].
  assert (∀ tail current,
            read_lines ((Numeric <$> rows) ++ tail) [] current
            = read_lines tail [] (current ++ rows)) as Hrun.
  { intros tail. clear Hrows. induction rows as [|row rows IH]; intros current;
      simpl; [by rewrite app_nil_r|].
    rewrite IH. by rewrite <-app_assoc. }
  split.
  - rewrite Hrun. simpl. destruct rows as [|r rows]; [done|].
    by rewrite (read_lines_acc rest [_]).
  - rewrite <-(app_nil_r (Numeric <$> rows)), Hrun. simpl.
    by destruct rows.
Qed.

Lemma read_lines_blocks_witness :
  read_lines [Other; Numeric [1%Z]] [] [] = read_lines [Numeric [1%Z]] [] [] ∧
  read_lines ((Numeric <$> [[5; 3]; [6; 0]]%Z) ++ [Other; Numeric [1%Z]]) [] [] =
    match read_lines [Numeric [1%Z]] [] [] with
    | Read ps => Read ([[5; 3]; [6; 0]]%Z :: ps)
    | ValueError => ValueError
    end ∧
  read_lines (Numeric <$> [[5; 3]; [6; 0]]%Z) [] [] = Read [[[5; 3]; [6; 0]]%Z].
Proof.
  apply (read_lines_blocks [[5; 3]; [6; 0]]%Z [Numeric [1%Z]]). discriminate.
Defined.

Lemma read_lines_inv lines current ps :
  read_lines lines [] current = Read ps →
  concat ps = current ++ numeric_rows lines ∧ Forall (fun p => p ≠ []) ps.
Proof.
  revert current ps.
  induction lines as [|[row| |] rest IH]; intros current ps; simpl; intros H.
  - injection H as <-. destruct current; simpl; [done|].
    rewrite !app_nil_r. split; [done|]. by repeat constructor.
  - destruct (IH _ _ H) as [Hc Hf]. split; [|done].
    rewrite Hc. unfold numeric_rows. simpl. by rewrite <-app_assoc.
  - destruct current as [|r current]; [by apply IH|].
    rewrite read_lines_acc in H.
    destruct (read_lines rest [] []) as [qs|] eqn:Hq; [|done].
    injection H as <-. destruct (IH _ _ Hq) as [Hc Hf]. simpl in *. split.
    + by rewrite Hc.
    + by constructor.
  - done.
Qed.

(** X24. When [_read_puzzle_file] returns, no puzzle of the list is empty and
    the rows of the puzzles, taken in order, are exactly the rows of the
    numeric lines of the file; a file that does not exist gives no puzzle. *)
Theorem read_puzzle_file_rows file ps :
  read_puzzle_file file = Read ps →
  Forall (fun p => p ≠ []) ps ∧
  concat ps = match file with
              | None => []
              | Some lines => numeric_rows lines
              end.
Proof.
  destruct file as [lines|]; simpl; intros H.
  - by destruct (read_lines_inv _ _ _ H).
  - injection H as <-. by split.
Qed.

Lemma read_puzzle_file_rows_witness :
  Forall (fun p : grid => p ≠ []) [[[5; 3]]; [[6; 0]; [1; 9]]]%Z ∧
  concat [[[5; 3]]; [[6; 0]; [1; 9]]]%Z
  = numeric_rows [Other; Numeric [5; 3]; Other; Other; Numeric [6; 0];
                  Numeric [1; 9]]%Z.
Proof.
  apply (read_puzzle_file_rows
           (Some [Other; Numeric [5; 3]; Other; Other; Numeric [6; 0];
                  Numeric [1; 9]]%Z)).
  reflexivity.
Defined.

(** X25. [_read_puzzle_file] lets a ValueError out exactly when some line that
    passes the numeric test has a token [int] rejects. *)
Theorem read_puzzle_file_ValueError lines :
  read_puzzle_file (Some lines) = ValueError ↔ Malformed ∈ lines.
Proof.
  unfold read_puzzle_file. generalize (@nil grid) at 1. generalize (@nil (list Z)).
  induction lines as [|[row| |] rest IH]; intros current puzzles; simpl.
  - split; [done | by intros ?%elem_of_nil].
  - rewrite IH, elem_of_cons. split; [by right | by intros [?|?]].
  - rewrite elem_of_cons. destruct current; rewrite IH;
      (split; [by right | by intros [?|?]]).
  - split; [intros _; left | done].
Qed.

(** * Installing the puzzle lists *)

Lemma alloc_grids_spec grids h ls h' :
  alloc_grids grids h = (ls, h') →
  length ls = length grids ∧
  (∀ i l, ls !! i = Some l → (l ∉ dom h) ∧ is_Some (grids !! i) ∧
                             h' !! l = grids !! i) ∧
  (∀ l, l ∈ dom h → h' !! l = h !! l).
Proof.
  revert h ls h'. induction grids as [|g rest IH]; intros h ls h'; simpl.
  { intros [= <- <-]. split_and!; [done | intros i l Hl; by rewrite lookup_nil in Hl | done]. }
  destruct (alloc_grids rest (<[fresh (dom h) := g]> h)) as [ls1 h1] eqn:Ha.
  intros [= <- <-]. destruct (IH _ _ _ Ha) as (Hlen & Hnew & Hold).
  pose proof (is_fresh (dom h)) as Hfresh.
  split_and!.
  - simpl. by rewrite Hlen.
  - intros [|i] l Hl; simpl in Hl.
    + injection Hl as <-. split_and!; [done | by eexists |].
      rewrite Hold by (rewrite dom_insert_L; set_solver).
      by rewrite lookup_insert_eq.
    + destruct (Hnew i l Hl) as (Hnin & Hsome & Hlook).
      split_and!; [|done..]. rewrite dom_insert_L in Hnin. set_solver.
  - intros l Hl. rewrite Hold by (rewrite dom_insert_L; set_solver).
    rewrite lookup_insert_ne; [done|]. by intros <-.
Qed.

Lemma tier_holds_stored s difficulty grids i :
  tier_holds s difficulty grids → stored_grid s difficulty i = grids !! i.
Proof.
  intros (ls & Hls & Hlen & Hl). unfold stored_grid. rewrite Hls. simpl.
  destruct (ls !! i) as [l|] eqn:Hi; simpl.
  - by destruct (Hl i l Hi).
  - symmetry. apply lookup_ge_None. apply lookup_ge_None in Hi. lia.
Qed.

Lemma store_puzzles_spec difficulty grids s :
  tier_holds (store_puzzles difficulty grids s) difficulty grids ∧
  (∀ d gs, d ≠ difficulty → tier_holds s d gs →
           tier_holds (store_puzzles difficulty grids s) d gs) ∧
  puzzle (store_puzzles difficulty grids s) = puzzle s ∧
  original_puzzle (store_puzzles difficulty grids s) = original_puzzle s ∧
  (∀ l, l ∈ dom (heap s) →
        heap (store_puzzles difficulty grids s) !! l = heap s !! l).
Proof.
  unfold store_puzzles.
  destruct (alloc_grids grids (heap s)) as [ls h] eqn:Ha.
  destruct (alloc_grids_spec _ _ _ _ Ha) as (Hlen & Hnew & Hold).
  split_and!; simpl; [| |done|done|done].
  - exists ls. simpl. rewrite lookup_insert_eq. split_and!; [done..|].
    intros i l Hl. by destruct (Hnew i l Hl) as (_ & ? & ?).
  - intros d gs Hd (ls' & Hls' & Hlen' & Hl'). exists ls'. simpl.
    rewrite lookup_insert_ne by done. split_and!; [done..|].
    intros i l Hi. destruct (Hl' i l Hi) as [Hsome Hlook].
    split; [done|]. rewrite Hold; [done|].
    apply elem_of_dom. rewrite Hlook. done.
Qed.

(** X26. When [load_puzzles] returns, each tier holds, in order, the puzzles
    read from its file (none for a missing file); the working grid, the
    snapshot and every existing object are untouched. *)
Theorem load_puzzles_stores easy medium hard s s' :
  load_puzzles easy medium hard s = Read s' →
  ∃ e m h,
    read_puzzle_file easy = Read e ∧ read_puzzle_file medium = Read m ∧
    read_puzzle_file hard = Read h ∧
    (∀ i, stored_grid s' "Easy" i = e !! i) ∧
    (∀ i, stored_grid s' "Medium" i = m !! i) ∧
    (∀ i, stored_grid s' "Hard" i = h !! i) ∧
    puzzle s' = puzzle s ∧ original_puzzle s' = original_puzzle s ∧
    ∀ l, l ∈ dom (heap s) → heap s' !! l = heap s !! l.
Proof.
  unfold load_puzzles.
  destruct (read_puzzle_file easy) as [e|]; [|done].
  destruct (read_puzzle_file medium) as [m|]; [|done].
  destruct (read_puzzle_file hard) as [h|]; [|done].
  intros [= <-]. exists e, m, h.
  destruct (store_puzzles_spec "Easy" e s) as (He & _ & Hp1 & Ho1 & Hf1).
  set (s1 := store_puzzles "Easy" e s) in *.
  destruct (store_puzzles_spec "Medium" m s1) as (Hm & Hk2 & Hp2 & Ho2 & Hf2).
  set (s2 := store_puzzles "Medium" m s1) in *.
  destruct (store_puzzles_spec "Hard" h s2) as (Hh & Hk3 & Hp3 & Ho3 & Hf3).
  split_and!; [done | done | done | | | | congruence | congruence |].
  - intros i. apply tier_holds_stored, Hk3; [done|]. by apply Hk2.
  - intros i. apply tier_holds_stored, Hk3; [done|]. done.
  - intros i. by apply tier_holds_stored.
  - intros l Hl.
    assert (l ∈ dom (heap s1)) as Hl1.
    { apply elem_of_dom. rewrite Hf1 by done. by apply elem_of_dom. }
    assert (l ∈ dom (heap s2)) as Hl2.
    { apply elem_of_dom. rewrite Hf2 by done. by apply elem_of_dom. }
    by rewrite Hf3, Hf2, Hf1.
Qed.

Lemma load_puzzles_stores_witness :
  ∃ s' e m h,
    read_puzzle_file (Some (Numeric <$> one_blank)) = Read e ∧
    read_puzzle_file None = Read m ∧ read_puzzle_file (Some []) = Read h ∧
    (∀ i, stored_grid s' "Easy" i = e !! i) ∧
    (∀ i, stored_grid s' "Medium" i = m !! i) ∧
    (∀ i, stored_grid s' "Hard" i = h !! i) ∧
    puzzle s' = puzzle game0 ∧ original_puzzle s' = original_puzzle game0 ∧
    ∀ l, l ∈ dom (heap game0) → heap s' !! l = heap game0 !! l.
Proof.
  eexists.
  apply (load_puzzles_stores (Some (Numeric <$> one_blank)) None (Some []) game0).
  reflexivity.
Defined.

(** X27. A tier whose file is missing is empty after [load_puzzles], so that
    [load_puzzle] on it, with any index the puzzle buttons can give (0 and
    up), changes nothing. *)
Theorem missing_file_then_load_noop easy hard s s' idx :
  load_puzzles easy None hard s = Read s' → (0 ≤ idx)%Z →
  load_puzzle "Medium" idx s' = Ok s'.
Proof.
  intros Hload Hidx. apply load_puzzle_out_of_range_aux. intros stored Hs.
  unfold load_puzzles in Hload.
  destruct (read_puzzle_file easy) as [e|]; [|done].
  simpl in Hload. destruct (read_puzzle_file hard) as [h|]; [|done].
  injection Hload as <-.
  set (s1 := store_puzzles "Easy" e s) in *.
  destruct (store_puzzles_spec "Medium" [] s1) as (Hm & _).
  set (s2 := store_puzzles "Medium" [] s1) in *.
  destruct (store_puzzles_spec "Hard" h s2) as (_ & Hk & _).
  destruct (Hk "Medium" [] ltac:(done) Hm) as (ls' & Hls' & Hlen' & _).
  rewrite Hls' in Hs. injection Hs as <-. simpl in Hlen'. lia.
Qed.

Lemma missing_file_then_load_noop_witness :
  ∃ s', load_puzzle "Medium" 0 s' = Ok s'.
Proof.
  eexists.
  apply (missing_file_then_load_noop (Some (Numeric <$> one_blank)) None game0);
    [reflexivity | lia].
Defined.

(** * Which solution backtracking returns *)

Lemma find_empty_cell_before g c :
  find_empty_cell g = Ok (Some c) →
  ∀ c', c' ∈ all_cells → before c' c →
        ∃ v, cell_at g c' = Some v ∧ v ≠ 0%Z.
Proof.
  intros H. destruct (find_empty_in_first _ _ _ H) as (k & Hk & H0 & Hbefore).
  pose proof (lookup_lt_Some _ _ _ Hk) as Hlen.
  change (length all_cells) with 81 in Hlen.
  rewrite (all_cells_lookup k Hlen) in Hk. destruct c as [i j].
  assert (i = k / 9) as Hi by congruence.
  assert (j = k mod 9) as Hj by congruence. clear Hk.
  pose proof (Nat.div_mod_eq k 9). pose proof (Nat.mod_upper_bound k 9).
  intros [i' j'] [Hi' Hj']%elem_of_all_cells Hlt.
  unfold before in Hlt. cbn [fst snd] in Hlt.
  apply (Hbefore (9 * i' + j')); [lia|].
  rewrite all_cells_lookup by lia. f_equal.
  pose proof (Nat.div_mod_eq (9 * i' + j') 9).
  pose proof (Nat.mod_upper_bound (9 * i' + j') 9).
  f_equal; lia.
Qed.

Lemma full_solution_eq s g :
  grid9 g → solves s g →
  (∀ c, c ∈ all_cells → ∃ v, cell_at g c = Some v ∧ v ≠ 0%Z) → g = s.
Proof.
  intros H9 (H9s & _ & _ & Hk) Hfull. apply grid9_ext; [done..|].
  intros c Hc. destruct (Hfull c Hc) as (v & Hv & Hv0).
  rewrite Hv. symmetry. by apply Hk.
Qed.

Lemma candidates_ascending : ascending candidates.
Proof.
  unfold candidates. simpl. repeat (split; [repeat constructor; lia|]). done.
Qed.

Lemma try_candidates_least s solve row col nums g g' :
  grid9 g → solves s g →
  (row, col) ∈ all_cells → cell_at g (row, col) = Some 0%Z →
  (∀ c', c' ∈ all_cells → before c' (row, col) →
         ∃ v, cell_at g c' = Some v ∧ v ≠ 0%Z) →
  ascending nums → Forall (fun v => v ≠ 0%Z) nums →
  (∀ v, cell_at s (row, col) = Some v → v ∈ nums) →
  (∀ g1 b g2, solve g1 = Ok (b, g2) → keeps_givens g1 g2) →
  (∀ g1 g2, grid9 g1 → zeros g1 < zeros g → solves s g1 →
            solve g1 = Ok (true, g2) → lex_le g2 s) →
  (∀ g1 g2, grid9 g1 → zeros g1 < zeros g → solves s g1 →
            solve g1 ≠ Ok (false, g2)) →
  (∀ g1 g2, solve g1 = Ok (false, g2) → g2 = g1) →
  try_candidates solve row col nums g = Ok (true, g') → lex_le g' s.
Proof.
  intros H9 Hs Hin H0 Hfirst Hsorted Hnums Hmem Hframe Hleast Hcomp Hback.
  pose proof Hs as (H9s & Hf & Hn & Hk).
  destruct (Hf _ Hin) as (w & Hw & Hw9).
  induction nums as [|num rest IH]; simpl; intros H; [by inv_ok|].
  destruct Hsorted as [Hlt Hsorted].
  apply Forall_cons in Hnums as [Hnum Hnums].
  specialize (IH Hsorted Hnums).
  inv_ok. destruct a.
  - inv_ok. destruct a0 as [solved g2].
    assert (grid9 a) as H91 by (by eapply set_cell_grid9).
    destruct solved; inv_ok.
    + destruct (decide (w = num)) as [->|Hne].
      * eapply Hleast; [done| | |done].
        -- by eapply zeros_set_lt.
        -- by eapply solves_place.
      * right. exists (row, col), num, w.
        pose proof (Hframe _ _ _ E1) as Hk12.
        split_and!; [done| | |done|].
        -- intros c' Hc' Hb. destruct (Hfirst c' Hc' Hb) as (v & Hv & Hv0).
           assert (c' ≠ (row, col)) as Hne' by (intros ->; congruence).
           rewrite (Hk c' v Hv Hv0). apply Hk12; [|done].
           by rewrite (cell_at_set_ne _ _ _ _ _ _ E0 Hne').
        -- apply Hk12; [|done]. by eapply cell_at_set_eq.
        -- specialize (Hmem w Hw). apply elem_of_cons in Hmem as [?|Hmem]; [done|].
           by apply (proj1 (Forall_forall _ _) Hlt).
    + apply Hback in E1 as Heq. subst g2.
      rewrite (set_cell_restore _ _ _ _ _ _ H0 E0) in E2. inv_ok.
      apply IH; [|done]. intros v Hv.
      specialize (Hmem v Hv). apply elem_of_cons in Hmem as [->|?]; [|done].
      destruct (Hcomp a a H91); [by eapply zeros_set_lt | | done].
      eapply solves_place; [done| |done]. congruence.
  - apply IH; [|done]. intros v Hv.
    specialize (Hmem v Hv). apply elem_of_cons in Hmem as [->|?]; [|done].
    apply is_valid_false in E as (c & Hc & Hsc & Hcv); [|done..].
    assert (c ≠ (row, col)) as Hne by (intros ->; congruence).
    destruct (Hn (row, col) c Hin Hc (in_scope_peer _ _ _ Hsc Hne)).
    by rewrite Hv, (Hk c num Hcv Hnum).
Qed.

Lemma backtracking_solve_fuel_least s fuel g g' :
  grid9 g → zeros g < fuel → solves s g →
  backtracking_solve_fuel fuel g = Ok (true, g') → lex_le g' s.
Proof.
  revert g g'. induction fuel as [|fuel IH]; intros g g' H9 Hfuel Hs H; [lia|].
  rewrite backtracking_solve_fuel_S in H. inv_ok.
  destruct a as [[row col]|]; inv_ok.
  - pose proof (find_empty_cell_before _ _ E) as Hfirst.
    apply find_empty_in_Some in E as [Hin H0].
    eapply try_candidates_least; eauto using candidates_ascending, candidates_nonzero.
    + intros v Hv. apply candidates_spec.
      destruct Hs as (_ & Hf & _). destruct (Hf _ Hin) as (w & Hw & ?).
      congruence.
    + apply backtracking_solve_fuel_frame.
    + intros g1 g2 H91 Hlt Hs1 Hr. apply (IH g1 g2 H91); [lia | done..].
    + intros g1 g2 H91 Hlt Hs1 Hr.
      destruct (backtracking_solve_fuel_complete s fuel g1) as [g3 Hg3];
        [done | lia | done | congruence].
    + apply backtracking_solve_fuel_rollback.
  - left. apply full_solution_eq; [done..|].
    by apply find_empty_in_None.
Qed.

(** X8. Among the solutions of a 9x9 puzzle, [backtracking_solve] returns the
    least one in lexicographic row-major order: the first empty cell gets
    the smallest digit that can be completed to a solution, and so on. *)
Theorem backtracking_solve_least g g' s :
  grid9 g → backtracking_solve g = Ok (true, g') → solves s g → lex_le g' s.
Proof.
  intros H9 H Hs. eapply backtracking_solve_fuel_least; [done| |done|done].
  pose proof (zeros_le_all g). lia.
Qed.

Lemma backtracking_solve_least_witness : lex_le solved1 solved1_swapped.
Proof.
  apply (backtracking_solve_least two_solutions solved1 solved1_swapped).
  - apply (check_givens_ok two_solutions solved1). vm_compute. reflexivity.
  - vm_compute. reflexivity.
  - apply (check_solves solved1_swapped two_solutions); vm_compute; reflexivity.
Defined.

Lemma before_trichotomy c1 c2 : c1 = c2 ∨ before c1 c2 ∨ before c2 c1.
Proof.
  destruct c1 as [i1 j1], c2 as [i2 j2]. unfold before. simpl.
  destruct (decide (i1 = i2)) as [->|?]; [|lia].
  destruct (decide (j1 = j2)) as [->|?]; [by left | lia].
Qed.

Lemma lex_le_antisym a b : lex_le a b → lex_le b a → a = b.
Proof.
  intros [?|(c & va & vb & Hc & Hpre & Ha & Hb & Hlt)]; [done|].
  intros [?|(c' & vb' & va' & Hc' & Hpre' & Hb' & Ha' & Hlt')]; [done|].
  destruct (before_trichotomy c c') as [-> | [Hbf | Hbf]].
  - rewrite Ha in Ha'. rewrite Hb in Hb'. simplify_eq. lia.
  - specialize (Hpre' c Hc Hbf). rewrite Ha, Hb in Hpre'. simplify_eq. lia.
  - specialize (Hpre c' Hc' Hbf). rewrite Ha', Hb' in Hpre. simplify_eq. lia.
Qed.

(** X18. On every 9x9 puzzle that has a solution, unique or not,
    [backtracking_solve] and [ac3_solve] return True and leave the same
    grid. *)
Theorem solvers_agree_on_solvable set_order g s :
  (∀ X, set_order X ≡ₚ elements X) → grid9 g → solves s g →
  ∃ g', backtracking_solve g = Ok (true, g') ∧
        ac3_solve set_order g = Ok (true, g').
Proof.
  intros Hp H9 Hs. pose proof (set_order_perm_sound _ Hp) as Hsound.
  destruct (backtracking_solve_finds s g H9 Hs) as (gb & Hgb & Hsb).
  exists gb. split; [done|].
  destruct (loop_drains set_order g Hsound (grid9_readable _ H9))
    as (d & q & d' & Hd & Hq & Hl).
  destruct (apply_after_loop _ _ _ _ _ _ Hd Hl) as (g1 & Ha & Hr1 & _).
  destruct (ac3_propagation_sound _ _ _ _ _ _ _ _ Hsound H9 Hsb Hd Hq Hl Ha)
    as (H91 & Hgg1 & Hsb1).
  rewrite (ac3_solve_drained _ _ _ _ _ _ Hd Hq Hl Ha).
  destruct (check_win g1) eqn:Hw.
  - do 2 f_equal. apply full_solution_eq; [done..|].
    intros c Hc. destruct (Hr1 c Hc) as [v Hv]. exists v.
    split; [done|]. by eapply check_win_true.
  - destruct (backtracking_solve_finds gb g1 H91 Hsb1) as (g2 & Hg2 & Hs2).
    rewrite Hg2. simpl. do 2 f_equal.
    apply lex_le_antisym.
    + eapply backtracking_solve_fuel_least; [exact H91| |exact Hsb1|exact Hg2].
      pose proof (zeros_le_all g1). lia.
    + eapply backtracking_solve_fuel_least; [exact H9| | |exact Hgb].
      * pose proof (zeros_le_all g). lia.
      * destruct Hs2 as (? & ? & ? & ?). split_and!; [done..|].
        by eapply keeps_givens_trans.
Qed.

Lemma solvers_agree_on_solvable_witness :
  ∃ g', backtracking_solve two_solutions = Ok (true, g') ∧
        ac3_solve elements two_solutions = Ok (true, g').
Proof.
  apply (solvers_agree_on_solvable elements two_solutions solved1).
  - intros X. reflexivity.
  - apply (check_givens_ok two_solutions solved1). vm_compute. reflexivity.
  - apply (check_solves solved1 two_solutions); vm_compute; reflexivity.
Defined.

(** * The cursor handlers of the window *)

Module UI_facts.
Import UI.


Lemma py_index_nonneg {A} (l : list A) (i : Z) :
  (0 ≤ i)%Z → py_index l i = index l (Z.to_nat i).
Proof. intros Hi. unfold py_index. by rewrite decide_True by done. Qed.

(** X29. The guard of [__cell_clicked] accepts clicks up to [GRID_SIZE - MARGIN],
    five pixels beyond the last column, which ends at
    [MARGIN + 9 * SIDE = 425]: on a 9x9 grid that is not full, a click with
    [425 <= x < 430] computes column 9 and raises IndexError. *)
Theorem click_beyond_last_column x y ui :
  grid9 (current_grid ui) → check_win (current_grid ui) = false →
  (425 ≤ x < 430)%Z → (20 < y < 430)%Z → col ui ≠ 9%Z →
  cell_clicked x y ui = Raise IndexError.
Proof.
  intros [Hlen Hrows] Hw Hx Hy Hc. unfold cell_clicked. rewrite Hw.
  unfold MARGIN, GRID_SIZE, SIDE.
  rewrite decide_True by lia.
  assert ((x - 20) `div` 45 = 9)%Z as ->
    by (symmetry; apply Z.div_unique with (x - 20 - 405)%Z; lia).
  rewrite decide_False by (intros [= _ ?]; done).
  assert (0 ≤ (y - 20) `div` 45)%Z as Hr by (apply Z.div_pos; lia).
  rewrite py_index_nonneg by done. unfold index at 1.
  destruct (current_grid ui !! Z.to_nat ((y - 20) `div` 45)) as [cells|] eqn:Hcells;
    [|done].
  bind_step. rewrite py_index_nonneg by done. unfold index.
  pose proof (Forall_lookup_1 _ _ _ _ Hrows Hcells) as Hl. simpl in Hl.
  rewrite lookup_ge_None_2; [done|]. rewrite Hl. simpl. lia.
Qed.

(** X30. A key event without a character (Shift, an arrow key: [event.char] is
    the empty string) passes the test [event.char in "1234567890"], and
    [int('')] raises ValueError whenever a cell is selected and the grid is
    not full. *)
Theorem key_without_char_raises ui :
  check_win (current_grid ui) = false → (0 ≤ row ui)%Z → (0 ≤ col ui)%Z →
  key_pressed "" ui = RaisesValueError.
Proof.
  intros Hw Hr Hc. unfold key_pressed. rewrite Hw.
  by rewrite decide_True by done.
Qed.


Lemma click_beyond_last_column_witness :
  cell_clicked 427 100 ui_easy = Raise IndexError.
Proof.
  apply (click_beyond_last_column 427 100 ui_easy).
  - apply (bool_decide_unpack _). vm_compute. exact I.
  - vm_compute. reflexivity.
  - lia.
  - lia.
  - discriminate.
Defined.

Lemma key_without_char_raises_witness :
  key_pressed "" ui_easy = RaisesValueError.
Proof.
  apply (key_without_char_raises ui_easy).
  - vm_compute. reflexivity.
  - simpl. lia.
  - simpl. lia.
Defined.

End UI_facts.
